(** * Fieldpulse: the offline-first synchronisation engine

    A shallow embedding of the mobile client's sync engine:

    - [src/db/repositories/syncQueue.ts]  the durable mutation queue,
    - [src/db/repositories/jobs.ts]       the local job store (dirty-wins merge),
    - [src/store/syncStore.ts]            pull / push cycle, conflict handling,
                                          retry with exponential backoff.

    SQL tables are modelled as the data they hold: [sync_queue] as the list of
    its rows in rowid order, [jobs] as a finite map keyed by its primary key.
    Asynchronous functions are run to completion one after the other (the
    engine awaits every call it makes), in a state-and-exception monad over
    the device's world: database, store, clock, network.  [addToQueue], which
    has callers that do not await it, is also given statement by statement,
    with the interleavings of two calls in flight. *)

From stdpp Require Import base tactics option list sorting gmap strings.
From Stdlib Require Import ZArith Lia.

Local Open Scope string_scope.
Local Open Scope list_scope.
Local Open Scope Z_scope.

(** ** Shared types ([shared/types/index.ts]) *)

(** JSON values: queue payloads and conflict data are [unknown] in the
    source and travel through [JSON.stringify] / [JSON.parse]. *)
Unset Elimination Schemes.
Inductive Json : Type :=
  | JNull
  | JBool (b : bool)
  | JNum (n : Z)
  | JStr (s : string)
  | JArr (items : list Json)
  | JObj (fields : list (string * Json)).
Set Elimination Schemes.

(** [obj.key] on a parsed JSON value; [None] is JavaScript's [undefined]. *)
Fixpoint assoc (k : string) (fs : list (string * Json)) : option Json :=
  match fs with
  | [] => None
  | (k', v) :: fs' => if decide (k = k') then Some v else assoc k fs'
  end.

Definition jget (k : string) (j : Json) : option Json :=
  match j with
  | JObj fs => assoc k fs
  | _ => None
  end.

(** JavaScript truthiness of a property read. *)
Definition truthy (o : option Json) : bool :=
  match o with
  | None | Some JNull | Some (JBool false) => false
  | Some (JNum n) => negb (n =? 0)
  | Some (JStr s) => negb (String.eqb s "")
  | Some _ => true
  end.

Inductive SyncAction := create | update | delete.
Inductive SyncEntityType := job | checklist_response | photo | signature.

Global Instance SyncAction_eq_dec : EqDecision SyncAction.
Proof. solve_decision. Defined.
Global Instance SyncEntityType_eq_dec : EqDecision SyncEntityType.
Proof. solve_decision. Defined.

(** [interface Job]: the fields the engine reads, and the rest of the
    serialised entity. *)
Record Job := mkJob {
  job_id : string;
  version : Z;
  job_fields : Json;
}.

Record SyncQueueItem := mkItem {
  id : Z;
  entityType : SyncEntityType;
  entityId : string;
  action : SyncAction;
  payload : Json;
  filePath : option string;
  retryCount : Z;
  lastError : option string;
  priority : Z;
  createdAt : Z;
}.

Record SyncConflict := mkConflict {
  conflict_id : Z;
  conflict_entityType : SyncEntityType;
  conflict_entityId : string;
  localData : Json;
  (** [unknown] in the source; its only use is the cast to [Job] at the
      [saveJob] call of [resolveConflict]. *)
  serverData : Job;
  resolved : bool;
}.

(** ** The local database ([src/db/index.ts]) *)

(** A row of [sync_queue]. *)
Record SyncQueueRow := mkRow {
  row_id : Z;
  entity_type : SyncEntityType;
  entity_id : string;
  row_action : SyncAction;
  row_payload : Json;
  file_path : option string;
  retry_count : Z;
  last_error : option string;
  row_priority : Z;
  created_at : Z;
}.

(** A row of [jobs] ([interface LocalJob]); the key [id] is the map key. *)
Record LocalJob := mkLocalJob {
  data : Job;
  server_version : option Z;
  local_version : Z;
  is_dirty : Z;
  last_synced_at : option Z;
  job_created_at : Z;
}.

Record Db := mkDb {
  sync_queue : list SyncQueueRow;
  (** the AUTOINCREMENT counter of [sync_queue] (largest rowid ever used) *)
  sync_queue_seq : Z;
  jobs : gmap string LocalJob;
}.

Definition set_queue (q : list SyncQueueRow) (db : Db) : Db :=
  mkDb q (sync_queue_seq db) (jobs db).
Definition set_jobs (js : gmap string LocalJob) (db : Db) : Db :=
  mkDb (sync_queue db) (sync_queue_seq db) js.

(** ** The mutation queue ([src/db/repositories/syncQueue.ts]) *)

Definition rowToItem (row : SyncQueueRow) : SyncQueueItem :=
  {| id := row_id row;
     entityType := entity_type row;
     entityId := entity_id row;
     action := row_action row;
     payload := row_payload row;
     filePath := file_path row;
     retryCount := retry_count row;
     lastError := last_error row;
     priority := row_priority row;
     createdAt := created_at row |}.

(** [WHERE entity_type = ? AND entity_id = ?] *)
Definition same_entity (et : SyncEntityType) (eid : string) (r : SyncQueueRow) : bool :=
  bool_decide (entity_type r = et) && bool_decide (entity_id r = eid).

(** [WHERE id = ?] *)
Definition has_id (i : Z) (r : SyncQueueRow) : bool := bool_decide (row_id r = i).

(** The rowid AUTOINCREMENT hands out: one more than the largest rowid the
    table has ever held. *)
Definition max_rowid (q : list SyncQueueRow) : Z :=
  foldr (fun r m => Z.max (row_id r) m) 0 q.

Definition next_rowid (db : Db) : Z :=
  Z.max (sync_queue_seq db) (max_rowid (sync_queue db)) + 1.

(** The two statements of [addToQueue].  Each is awaited on its own and no
    transaction holds them together, so a statement of another call can run
    between them. *)

(** [DELETE FROM sync_queue WHERE entity_type = ? AND entity_id = ?] *)
Definition addToQueue_delete (et : SyncEntityType) (eid : string) (db : Db) : unit * Db :=
  (tt, set_queue (filter (fun r => negb (same_entity et eid r)) (sync_queue db)) db).

(** [INSERT INTO sync_queue (entity_type, entity_id, action, payload,
    file_path, priority) VALUES (...)]; [retry_count], [last_error] and
    [created_at] take the column defaults ([now] is the clock in seconds).
    Returns [insertId]. *)
Definition addToQueue_insert (et : SyncEntityType) (eid : string) (act : SyncAction)
    (pl : Json) (fp : option string) (prio : Z) (now : Z) (db : Db) : Z * Db :=
  let new_id := next_rowid db in
  let row := {| row_id := new_id; entity_type := et; entity_id := eid;
                row_action := act; row_payload := pl; file_path := fp;
                retry_count := 0; last_error := None;
                row_priority := prio; created_at := now |} in
  (new_id, mkDb (sync_queue db ++ [row]) new_id (jobs db)).

(** [addToQueue], as a call that no other statement interrupts: the DELETE,
    then the INSERT. *)
Definition addToQueue (et : SyncEntityType) (eid : string) (act : SyncAction)
    (pl : Json) (fp : option string) (prio : Z) (now : Z) (db : Db) : Z * Db :=
  let '(_, db1) := addToQueue_delete et eid db in
  addToQueue_insert et eid act pl fp prio now db1.

(** [ORDER BY]: the rows a scan of the table yields, put in the order of
    the sort keys; rows that tie on the keys keep the order of the scan, the
    order of their rowids. *)
Fixpoint insert_by {A} (R : relation A) `{!∀ x y, Decision (R x y)} (x : A) (l : list A) : list A :=
  match l with
  | [] => [x]
  | y :: l' => if decide (R x y) then x :: y :: l' else y :: insert_by R x l'
  end.

Definition order_by {A} (R : relation A) `{!∀ x y, Decision (R x y)} (l : list A) : list A :=
  foldr (insert_by R) [] l.

(** [ORDER BY priority DESC, created_at ASC] *)
Definition queue_order (a b : SyncQueueRow) : Prop :=
  row_priority b < row_priority a ∨
  (row_priority a = row_priority b ∧ created_at a ≤ created_at b).

Global Instance queue_order_dec a b : Decision (queue_order a b).
Proof. unfold queue_order. apply _. Defined.

(** [LIMIT ?]: a negative limit means no upper bound in SQLite. *)
Definition sql_limit {A} (limit : Z) (l : list A) : list A :=
  if limit <? 0 then l else take (Z.to_nat limit) l.

(** [getNextQueueItems]: [WHERE retry_count < 3 ORDER BY priority DESC,
    created_at ASC LIMIT ?]. *)
Definition getNextQueueItems (limit : Z) (db : Db) : list SyncQueueItem * Db :=
  let eligible := filter (fun r => retry_count r <? 3) (sync_queue db) in
  (rowToItem <$> sql_limit limit (order_by queue_order eligible), db).

Definition getQueueCount (db : Db) : Z * Db :=
  (Z.of_nat (length (sync_queue db)), db).

Definition markItemSuccess (i : Z) (db : Db) : unit * Db :=
  (tt, set_queue (filter (fun r => negb (has_id i r)) (sync_queue db)) db).

Definition fail_row (err : string) (r : SyncQueueRow) : SyncQueueRow :=
  mkRow (row_id r) (entity_type r) (entity_id r) (row_action r) (row_payload r)
        (file_path r) (retry_count r + 1) (Some err) (row_priority r) (created_at r).

Definition markItemFailed (i : Z) (err : string) (db : Db) : unit * Db :=
  (tt, set_queue ((fun r => if has_id i r then fail_row err r else r) <$> sync_queue db) db).

Definition removeFromQueue (i : Z) (db : Db) : unit * Db :=
  (tt, set_queue (filter (fun r => negb (has_id i r)) (sync_queue db)) db).

Definition clearQueue (db : Db) : unit * Db := (tt, set_queue [] db).

Definition reset_row (r : SyncQueueRow) : SyncQueueRow :=
  mkRow (row_id r) (entity_type r) (entity_id r) (row_action r) (row_payload r)
        (file_path r) 0 None (row_priority r) (created_at r).

Definition retryFailedItem (i : Z) (db : Db) : unit * Db :=
  (tt, set_queue ((fun r => if has_id i r then reset_row r else r) <$> sync_queue db) db).

(** [getQueueItem]: [rows[0]] of [SELECT * FROM sync_queue WHERE id = ?],
    or [null]. *)
Definition getQueueItem (i : Z) (db : Db) : option SyncQueueItem * Db :=
  (rowToItem <$> head (filter (fun r => has_id i r) (sync_queue db)), db).

(** [ORDER BY created_at ASC] *)
Definition created_order (a b : SyncQueueRow) : Prop := created_at a ≤ created_at b.

Global Instance created_order_dec a b : Decision (created_order a b).
Proof. unfold created_order. apply _. Defined.

(** [getFailedItems]: [WHERE retry_count >= 3 ORDER BY created_at ASC]. *)
Definition getFailedItems (db : Db) : list SyncQueueItem * Db :=
  let failed := filter (fun r => 3 <=? retry_count r) (sync_queue db) in
  (rowToItem <$> order_by created_order failed, db).

(** ** The local job store ([src/db/repositories/jobs.ts]) *)

(** [server_version ?? 0] *)
Definition server_version_or_zero (l : LocalJob) : Z := default 0 (server_version l).

(** The guard of a server-origin write:
    [!localJob.is_dirty || job.version > (localJob.server_version ?? 0)]. *)
Definition server_may_overwrite (l : LocalJob) (j : Job) : bool :=
  (is_dirty l =? 0) || (server_version_or_zero l <? version j).

(** [UPDATE jobs SET data = ?, server_version = ?, last_synced_at = ?, is_dirty = 0] *)
Definition server_update (j : Job) (now : Z) (l : LocalJob) : LocalJob :=
  mkLocalJob j (Some (version j)) (local_version l) 0 (Some now) (job_created_at l).

(** [UPDATE jobs SET data = ?, local_version = local_version + 1, is_dirty = 1] *)
Definition local_update (j : Job) (l : LocalJob) : LocalJob :=
  mkLocalJob j (server_version l) (local_version l + 1) 1 (last_synced_at l)
             (job_created_at l).

(** [INSERT INTO jobs (...) VALUES (?, ?, ?, 1, ?, ?, ?)] *)
Definition inserted_job (j : Job) (fromServer : bool) (now : Z) : LocalJob :=
  mkLocalJob j (if fromServer then Some (version j) else None) 1
             (if fromServer then 0 else 1)
             (if fromServer then Some now else None) now.

(** The body shared by [saveJob] and by each iteration of [saveJobs]. *)
Definition upsert_job (j : Job) (fromServer : bool) (now : Z)
    (js : gmap string LocalJob) : gmap string LocalJob :=
  match js !! job_id j with
  | Some localJob =>
      if fromServer then
        if server_may_overwrite localJob j
        then <[job_id j := server_update j now localJob]> js
        else js
      else <[job_id j := local_update j localJob]> js
  | None => <[job_id j := inserted_job j fromServer now]> js
  end.

Definition saveJob (j : Job) (fromServer : bool) (now : Z) (db : Db) : unit * Db :=
  (tt, set_jobs (upsert_job j fromServer now (jobs db)) db).

(** One transaction, one reading of the clock, the jobs in order. *)
Definition saveJobs (l : list Job) (fromServer : bool) (now : Z) (db : Db) : unit * Db :=
  (tt, set_jobs (foldl (fun js j => upsert_job j fromServer now js) (jobs db) l) db).

Definition deleteJob (jobId : string) (db : Db) : unit * Db :=
  (tt, set_jobs (base.delete jobId (jobs db)) db).

Definition getJobById (jobId : string) (db : Db) : option Job * Db :=
  (data <$> jobs db !! jobId, db).

(** [UPDATE jobs SET server_version = ?, is_dirty = 0, last_synced_at = ?
    WHERE id = ?] *)
Definition synced_job (serverVersion now : Z) (l : LocalJob) : LocalJob :=
  mkLocalJob (data l) (Some serverVersion) (local_version l) 0 (Some now)
             (job_created_at l).

Definition markJobSynced (jobId : string) (serverVersion now : Z) (db : Db) : unit * Db :=
  (tt, set_jobs (alter (synced_job serverVersion now) jobId (jobs db)) db).

Definition deleteAllJobs (db : Db) : unit * Db := (tt, set_jobs ∅ db).

(** The rows of [jobs] with their keys, [ORDER BY created_at ASC].  The map
    does not record the rowids of [jobs]: rows that tie on [created_at] are
    listed in the order of their keys. *)
Definition job_created_order (a b : string * LocalJob) : Prop :=
  job_created_at a.2 ≤ job_created_at b.2.

Global Instance job_created_order_dec a b : Decision (job_created_order a b).
Proof. unfold job_created_order. apply _. Defined.

(** [getDirtyJobs]: [WHERE is_dirty = 1 ORDER BY created_at ASC], each row
    as the parsed job with its [local_version]. *)
Definition getDirtyJobs (db : Db) : list (Job * Z) * Db :=
  let dirty := filter (fun kl : string * LocalJob => is_dirty kl.2 =? 1)
                      (map_to_list (jobs db)) in
  ((fun kl : string * LocalJob => (data kl.2, local_version kl.2))
     <$> order_by job_created_order dirty, db).

(** [getAllJobs]: [ORDER BY created_at DESC], each row as the parsed job. *)
Definition getAllJobs (db : Db) : list Job * Db :=
  ((fun kl : string * LocalJob => data kl.2)
     <$> order_by (flip job_created_order) (map_to_list (jobs db)), db).

(** ** The world the engine runs in *)

(** What a rejected promise carries: an [AxiosError] with the optional
    [response.status] and [response.data.code], another [Error], or a value
    that is not an [Error] ([None] is [undefined]). *)
Inductive JsError :=
  | AxiosError (status : option Z) (code : option string) (message : string)
  | OtherError (message : string)
  | NonError (v : option Json).

Inductive Request :=
  | PostSyncPull (since : Z) (entities : list string)
  | PatchJob (jobId : string) (body : Json)
  | PostJobComplete (jobId : string) (responses version_ : option Json)
  | PostChecklistBatch (jobId : string) (responses : option Json)
  | GetJob (jobId : string).

(** The body of a pull response: [jobs?.updated], [jobs?.deleted], [syncedAt].
    ISO-8601 timestamps are modelled by the instant they denote, in
    milliseconds. *)
Record PullData := mkPull {
  updated : option (list Job);
  deleted : option (list string);
  syncedAt : Z;
}.

Inductive ResponseData :=
  | NoData
  | JobData (j : Job)
  | PullResponse (p : PullData).

Inductive Response :=
  | Resolved (d : ResponseData)
  | Rejected (e : JsError).

Inductive NetworkStatus := online | offline | unknown.

Global Instance NetworkStatus_eq_dec : EqDecision NetworkStatus.
Proof. solve_decision. Defined.

(** [interface SyncState] of the store. *)
Record SyncState := mkState {
  networkStatus : NetworkStatus;
  isSyncing : bool;
  lastSyncedAt : option Z;
  pendingCount : Z;
  conflicts : list SyncConflict;
  error : option string;
}.

(** The initial state of [useSyncStore]. *)
Definition initialState : SyncState := mkState unknown false None 0 [] None.

Record World := mkWorld {
  db : Db;
  store : SyncState;
  (** [Date.now()], milliseconds; it moves when the engine sleeps *)
  clock : Z;
  (** the remote calls made so far, oldest first *)
  calls : list Request;
  (** the delays passed to [sleep], oldest first *)
  slept : list Z;
  (** the remote service: its answer to the n-th call of the run *)
  remote : nat -> Request -> Response;
}.

Inductive Result (A : Type) :=
  | Returns (a : A)
  | Throws (e : JsError).
Arguments Returns {A} a.
Arguments Throws {A} e.

(** An awaited computation: it leaves a world behind whether it returns or
    throws. *)
Definition M (A : Type) : Type := World -> Result A * World.

Definition ret {A} (a : A) : M A := fun w => (Returns a, w).
Definition throw {A} (e : JsError) : M A := fun w => (Throws e, w).
Definition bind {A B} (m : M A) (k : A -> M B) : M B :=
  fun w => match m w with
           | (Returns a, w') => k a w'
           | (Throws e, w') => (Throws e, w')
           end.
Definition try_catch {A} (m : M A) (handler : JsError -> M A) : M A :=
  fun w => match m w with
           | (Returns a, w') => (Returns a, w')
           | (Throws e, w') => handler e w'
           end.

Declare Scope sync_scope.
Delimit Scope sync_scope with sync.
Notation "x <- m ;; k" := (bind m (fun x => k))
  (at level 100, m at next level, right associativity) : sync_scope.
Notation "m ;;; k" := (bind m (fun _ => k))
  (at level 100, right associativity) : sync_scope.
Local Open Scope sync_scope.

(** The elementary changes of the world. *)
Definition with_db (d : Db) (w : World) : World :=
  mkWorld d (store w) (clock w) (calls w) (slept w) (remote w).
Definition with_store (s : SyncState) (w : World) : World :=
  mkWorld (db w) s (clock w) (calls w) (slept w) (remote w).
Definition log_call (req : Request) (w : World) : World :=
  mkWorld (db w) (store w) (clock w) (calls w ++ [req]) (slept w) (remote w).
Definition log_sleep (ms : Z) (w : World) : World :=
  mkWorld (db w) (store w) (clock w + Z.max 0 ms) (calls w) (slept w ++ [ms]) (remote w).

(** A repository call: a statement run on the database. *)
Definition liftDb {A} (f : Db -> A * Db) : M A :=
  fun w => let '(a, d) := f (db w) in (Returns a, with_db d w).

(** [get()] and [set(...)] of the store. *)
Definition get : M SyncState := fun w => (Returns (store w), w).
Definition set (f : SyncState -> SyncState) : M unit :=
  fun w => (Returns tt, with_store (f (store w)) w).

(** [Date.now()] *)
Definition dateNow : M Z := fun w => (Returns (clock w), w).

(** [Math.floor(Date.now() / 1000)] *)
Definition nowSeconds : M Z := ms <- dateNow ;; ret (ms / 1000).

(** [sleep(ms)], a [setTimeout]: the clock has advanced by the delay when it
    resolves; a timer with a negative delay fires at once, and the clock
    never goes back.  The engine's own delays are 1000 and 2000 ms; delays
    beyond what a timer can hold (2^31 - 1 ms) are not told apart. *)
Definition sleep (ms : Z) : M unit := fun w => (Returns tt, log_sleep ms w).

(** What a promise of the remote service settles to. *)
Definition settle (r : Response) : Result ResponseData :=
  match r with
  | Resolved d => Returns d
  | Rejected e => Throws e
  end.

(** A call of [apiClient]: the promise resolves with the response or
    rejects with the error. *)
Definition apiClient (req : Request) : M ResponseData :=
  fun w => (settle (remote w (length (calls w)) req), log_call req w).

(** ** The reconciliation engine ([src/store/syncStore.ts]) *)

Definition isVersionConflict (e : JsError) : bool :=
  match e with
  | AxiosError status code _ =>
      bool_decide (status = Some 409) || bool_decide (code = Some "VERSION_CONFLICT")
  | _ => false
  end.

Definition isRateLimitError (e : JsError) : bool :=
  match e with
  | AxiosError status _ _ => bool_decide (status = Some 429)
  | _ => false
  end.

(** [error instanceof Error ? error.message : fallback] *)
Definition messageOr (fallback : string) (e : JsError) : string :=
  match e with
  | AxiosError _ _ m | OtherError m => m
  | NonError _ => fallback
  end.

(** The [for] loop of [retryWithBackoff], with [remaining] iterations to go:
    the loop variable is [attempt = maxRetries - remaining]. *)
Fixpoint retryLoop {A} (fn : M A) (maxRetries : nat) (baseDelay : Z)
    (remaining : nat) (lastError : JsError) : M A :=
  match remaining with
  | O => throw lastError
  | S k =>
      let attempt := (maxRetries - remaining)%nat in
      try_catch fn (fun e =>
        if negb (isRateLimitError e) then throw e
        else
          (if (attempt <? maxRetries - 1)%nat
           then sleep (baseDelay * 2 ^ Z.of_nat attempt)
           else ret tt) ;;;
          retryLoop fn maxRetries baseDelay k e)
  end.

Definition retryWithBackoffWith {A} (fn : M A) (maxRetries : nat) (baseDelay : Z) : M A :=
  retryLoop fn maxRetries baseDelay maxRetries (NonError None).

(** The defaults every call site uses: [maxRetries = 3], [baseDelay = 1000]. *)
Definition retryWithBackoff {A} (fn : M A) : M A := retryWithBackoffWith fn 3 1000.

(** The [TypeError] of a property read on [null] or [undefined]. *)
Definition typeError : JsError := OtherError "TypeError".

(** [processQueueItem].  The job branch hands the payload over without
    reading it; the checklist branch reads [payload.completeJob] first, which
    throws on a payload that is [null]. *)
Definition processQueueItem (item : SyncQueueItem) : M unit :=
  match entityType item with
  | job =>
      if decide (action item = update)
      then apiClient (PatchJob (entityId item) (payload item)) ;;; ret tt
      else ret tt
  | checklist_response =>
      if decide (action item = update)
      then
        match payload item with
        | JNull => throw typeError
        | _ =>
            if truthy (jget "completeJob" (payload item))
               && truthy (jget "version" (payload item))
            then apiClient (PostJobComplete (entityId item)
                              (jget "responses" (payload item))
                              (jget "version" (payload item))) ;;; ret tt
            else apiClient (PostChecklistBatch (entityId item)
                              (jget "responses" (payload item))) ;;; ret tt
        end
      else ret tt
  | photo | signature => ret tt
  end.

(** Server-wins: fetch the job and store it as a server-origin write; every
    failure is caught and logged. *)
Definition handleConflictServerWins (item : SyncQueueItem) : M unit :=
  try_catch
    (if decide (entityType item = job)
     then
       d <- apiClient (GetJob (entityId item)) ;;
       match d with
       | JobData serverJob => now <- nowSeconds ;; liftDb (saveJob serverJob true now)
       | _ => throw typeError
       end
     else ret tt)
    (fun _ => ret tt).

Definition updatePendingCount : M unit :=
  count <- liftDb getQueueCount ;;
  set (fun s => mkState (networkStatus s) (isSyncing s) (lastSyncedAt s) count
                        (conflicts s) (error s)).

(** One iteration of the loop of [pushChanges]; [true] is [break]. *)
Definition pushItem (item : SyncQueueItem) : M bool :=
  try_catch
    (retryWithBackoff (processQueueItem item) ;;;
     liftDb (markItemSuccess (id item)) ;;;
     ret false)
    (fun e =>
       if isVersionConflict e then
         handleConflictServerWins item ;;;
         liftDb (removeFromQueue (id item)) ;;;
         ret false
       else if isRateLimitError e then ret true
       else
         liftDb (markItemFailed (id item) (messageOr "Unknown error" e)) ;;;
         ret false).

Fixpoint pushLoop (items : list SyncQueueItem) : M unit :=
  match items with
  | [] => ret tt
  | item :: rest =>
      stop <- pushItem item ;;
      if stop : bool then ret tt else pushLoop rest
  end.

Definition pushChanges : M unit :=
  items <- liftDb (getNextQueueItems 10) ;;
  pushLoop items ;;;
  updatePendingCount.

Fixpoint deleteJobs (ids : list string) : M unit :=
  match ids with
  | [] => ret tt
  | jobId :: rest => liftDb (deleteJob jobId) ;;; deleteJobs rest
  end.

Definition setLastSyncedAt (t : Z) : M unit :=
  set (fun s => mkState (networkStatus s) (isSyncing s) (Some t) (pendingCount s)
                        (conflicts s) (error s)).

Definition pullChanges : M unit :=
  s <- get ;;
  try_catch
    (d <- retryWithBackoff
            (apiClient (PostSyncPull (default 0 (lastSyncedAt s)) ["jobs"; "customers"])) ;;
     match d with
     | PullResponse p =>
         match updated p with
         | Some js => now <- nowSeconds ;; liftDb (saveJobs js true now)
         | None => ret tt
         end ;;;
         match deleted p with
         | Some ids => deleteJobs ids
         | None => ret tt
         end ;;;
         setLastSyncedAt (syncedAt p)
     | _ => throw typeError
     end)
    (fun e => if isRateLimitError e then ret tt else throw e).

Definition startSync : M unit :=
  s <- get ;;
  if negb (bool_decide (networkStatus s = online)) || isSyncing s then ret tt
  else
    set (fun s => mkState (networkStatus s) true (lastSyncedAt s) (pendingCount s)
                          (conflicts s) None) ;;;
    try_catch
      (pullChanges ;;;
       pushChanges ;;;
       now <- dateNow ;;
       set (fun s => mkState (networkStatus s) false (Some now) (pendingCount s)
                             (conflicts s) (error s)) ;;;
       updatePendingCount)
      (fun e =>
         set (fun s => mkState (networkStatus s) false (lastSyncedAt s) (pendingCount s)
                               (conflicts s) (Some (messageOr "Sync failed" e)))).

Inductive Resolution := keep_local | keep_server.

Definition resolveConflict (conflictId : Z) (resolution : Resolution) : M unit :=
  s <- get ;;
  match List.find (fun c => bool_decide (conflict_id c = conflictId)) (conflicts s) with
  | None => ret tt
  | Some conflict =>
      match resolution with
      | keep_local =>
          now <- nowSeconds ;;
          liftDb (addToQueue (conflict_entityType conflict) (conflict_entityId conflict)
                             update (localData conflict) None 10 now) ;;;
          ret tt
      | keep_server =>
          if decide (conflict_entityType conflict = job)
          then now <- nowSeconds ;; liftDb (saveJob (serverData conflict) true now)
          else ret tt
      end ;;;
      set (fun s' => mkState (networkStatus s') (isSyncing s') (lastSyncedAt s')
                             (pendingCount s')
                             (List.filter (fun c => negb (bool_decide (conflict_id c = conflictId)))
                                          (conflicts s))
                             (error s')) ;;;
      match resolution with
      | keep_local => pushChanges
      | keep_server => ret tt
      end
  end.

Definition clearError : M unit :=
  set (fun s => mkState (networkStatus s) (isSyncing s) (lastSyncedAt s) (pendingCount s)
                        (conflicts s) None).

(** [state.isConnected === true ? 'online' : 'offline']; [isConnected] is
    [boolean | null]. *)
Definition statusOf (isConnected : option bool) : NetworkStatus :=
  match isConnected with
  | Some true => online
  | _ => offline
  end.

Definition setNetworkStatus (status : NetworkStatus) : M unit :=
  set (fun s => mkState status (isSyncing s) (lastSyncedAt s) (pendingCount s)
                        (conflicts s) (error s)).

(** The callback [initializeSync] gives to [NetInfo.fetch().then]; the
    cycle it starts is run to its end. *)
Definition netInfoFetched (isConnected : option bool) : M unit :=
  let status := statusOf isConnected in
  setNetworkStatus status ;;;
  s <- get ;;
  if bool_decide (status = online) && negb (isSyncing s) then startSync else ret tt.

(** The listener [initializeSync] gives to [NetInfo.addEventListener]. *)
Definition netInfoChanged (isConnected : option bool) : M unit :=
  s <- get ;;
  let previousStatus := networkStatus s in
  let newStatus := statusOf isConnected in
  if negb (bool_decide (previousStatus = newStatus)) then
    setNetworkStatus newStatus ;;;
    s' <- get ;;
    if bool_decide (newStatus = online) && negb (isSyncing s') then startSync else ret tt
  else ret tt.

(** ** Vocabulary of the statements *)

(** The operations of the mutation queue, as data: a history of the queue
    is a list of them. *)
Inductive QueueOp :=
  | OpAdd (et : SyncEntityType) (eid : string) (act : SyncAction) (pl : Json)
          (fp : option string) (prio : Z) (now : Z)
  | OpSuccess (i : Z)
  | OpFailed (i : Z) (err : string)
  | OpRemove (i : Z)
  | OpRetry (i : Z)
  | OpClear.

Definition applyOp (d : Db) (op : QueueOp) : Db :=
  match op with
  | OpAdd et eid act pl fp prio now => snd (addToQueue et eid act pl fp prio now d)
  | OpSuccess i => snd (markItemSuccess i d)
  | OpFailed i err => snd (markItemFailed i err d)
  | OpRemove i => snd (removeFromQueue i d)
  | OpRetry i => snd (retryFailedItem i d)
  | OpClear => snd (clearQueue d)
  end.

Definition emptyDb : Db := mkDb [] 0 ∅.

(** The rows of the queue that belong to one entity. *)
Definition rows_of (et : SyncEntityType) (eid : string) (q : list SyncQueueRow)
  : list SyncQueueRow := filter (fun r => same_entity et eid r) q.

(** The dedup invariant of the queue. *)
Definition at_most_one_per_entity (q : list SyncQueueRow) : Prop :=
  forall et eid, (length (rows_of et eid q) <= 1)%nat.

(** The rows of the queue that carry one id. *)
Definition rows_with_id (i : Z) (q : list SyncQueueRow) : list SyncQueueRow :=
  filter (fun r => has_id i r) q.

(** One enqueue call for a fixed entity: action, payload, file, priority, and
    the clock at the call. *)
Record Mutation := mkMutation {
  m_action : SyncAction;
  m_payload : Json;
  m_filePath : option string;
  m_priority : Z;
  m_now : Z;
}.

Definition enqueue (et : SyncEntityType) (eid : string) (d : Db) (m : Mutation) : Db :=
  snd (addToQueue et eid (m_action m) (m_payload m) (m_filePath m) (m_priority m) (m_now m) d).

(** A statement of an [addToQueue] call in flight: the DELETE or the INSERT
    of a call for entity [(et, eid)] with mutation [m]. *)
Inductive EnqueueStep :=
  | StepDelete (et : SyncEntityType) (eid : string)
  | StepInsert (et : SyncEntityType) (eid : string) (m : Mutation).

Definition runStep (d : Db) (s : EnqueueStep) : Db :=
  match s with
  | StepDelete et eid => snd (addToQueue_delete et eid d)
  | StepInsert et eid m =>
      snd (addToQueue_insert et eid (m_action m) (m_payload m) (m_filePath m)
                             (m_priority m) (m_now m) d)
  end.

(** The statements of one call, in program order. *)
Definition steps_of (et : SyncEntityType) (eid : string) (m : Mutation)
  : list EnqueueStep := [StepDelete et eid; StepInsert et eid m].

(** The ways the database can run the statements of two calls in flight:
    each call's statements in their own order. *)
Inductive interleaving {A} : list A -> list A -> list A -> Prop :=
  | interleaving_nil : interleaving [] [] []
  | interleaving_left x l1 l2 l :
      interleaving l1 l2 l -> interleaving (x :: l1) l2 (x :: l)
  | interleaving_right x l1 l2 l :
      interleaving l1 l2 l -> interleaving l1 (x :: l2) (x :: l).

(** [ORDER BY priority DESC, created_at ASC], read on queue items. *)
Definition item_order (a b : SyncQueueItem) : Prop :=
  priority b < priority a ∨ (priority a = priority b ∧ createdAt a ≤ createdAt b).

(** The loop of [pushChanges] went through these items without a [break]. *)
Inductive runs_through : list SyncQueueItem -> World -> World -> Prop :=
  | runs_nil w : runs_through [] w w
  | runs_cons item rest w w1 w2 :
      pushItem item w = (Returns false, w1) ->
      runs_through rest w1 w2 ->
      runs_through (item :: rest) w w2.

(** The world after a repository statement. *)
Definition after_db {A} (f : Db -> A * Db) (w : World) : World :=
  with_db (snd (f (db w))) w.

(** Two worlds that differ at most in clock, call log and sleep log. *)
Definition same_state (w w' : World) : Prop :=
  db w' = db w /\ store w' = store w /\ remote w' = remote w.

(** A computation that leaves database, store and remote service alone. *)
Definition keeps_state {A} (m : M A) : Prop := forall w, same_state w (snd (m w)).

(** A pull response applied in full: the updated jobs merged as
    server-origin writes at time [now], then the deleted jobs removed. *)
Definition apply_pull (p : PullData) (now : Z) (d : Db) : Db :=
  foldl (fun d' jobId => snd (deleteJob jobId d'))
        (match updated p with
         | Some js => snd (saveJobs js true now d)
         | None => d
         end)
        (default [] (deleted p)).

(** The two error responses of the service the engine tells apart, as the
    client receives them: [ConflictError] of the error handler (status 409,
    code VERSION_CONFLICT) and the answer of the rate-limit middleware
    (status 429, code RATE_LIMIT_EXCEEDED). *)
Definition conflictResponse (message : string) : JsError :=
  AxiosError (Some 409) (Some "VERSION_CONFLICT") message.
Definition rateLimitResponse (message : string) : JsError :=
  AxiosError (Some 429) (Some "RATE_LIMIT_EXCEEDED") message.

(** A promise rejected with a rate-limit error. *)
Definition rate_limited (r : Response) : bool :=
  match r with
  | Rejected e => isRateLimitError e
  | Resolved _ => false
  end.

(** The i-th remote call after world [w], if it is [req], is rejected as
    rate-limited. *)
Definition rate_limited_at (w : World) (req : Request) (i : nat) : Prop :=
  rate_limited (remote w (length (calls w) + i) req) = true.

(** The items [processQueueItem] fails on before it sends anything: the
    checklist updates whose payload is [null]. *)
Definition payload_unreadable (item : SyncQueueItem) : bool :=
  match entityType item, payload item with
  | checklist_response, JNull => bool_decide (action item = update)
  | _, _ => false
  end.

(** The request [processQueueItem] sends for an item, if it sends one. *)
Definition request_of (item : SyncQueueItem) : option Request :=
  match entityType item with
  | job =>
      if decide (action item = update)
      then Some (PatchJob (entityId item) (payload item)) else None
  | checklist_response =>
      if decide (action item = update)
      then
        match payload item with
        | JNull => None
        | _ =>
            Some (if truthy (jget "completeJob" (payload item))
                     && truthy (jget "version" (payload item))
                  then PostJobComplete (entityId item) (jget "responses" (payload item))
                         (jget "version" (payload item))
                  else PostChecklistBatch (entityId item) (jget "responses" (payload item)))
        end
      else None
  | photo | signature => None
  end.

(** The backoff delays slept before attempts [1 .. n]: [base * 2^0, ...,
    base * 2^(n-1)]. *)
Definition backoff_delays (base : Z) (n : nat) : list Z :=
  (fun attempt => base * 2 ^ Z.of_nat attempt) <$> seq 0 n.

(** The operations of the job store, as data. *)
Inductive JobOp :=
  | JobSave (j : Job) (fromServer : bool) (now : Z)
  | JobSaveMany (l : list Job) (fromServer : bool) (now : Z)
  | JobSynced (jobId : string) (serverVersion now : Z)
  | JobDelete (jobId : string)
  | JobDeleteAll.

Definition applyJobOp (d : Db) (op : JobOp) : Db :=
  match op with
  | JobSave j fromServer now => snd (saveJob j fromServer now d)
  | JobSaveMany l fromServer now => snd (saveJobs l fromServer now d)
  | JobSynced jobId serverVersion now => snd (markJobSynced jobId serverVersion now d)
  | JobDelete jobId => snd (deleteJob jobId d)
  | JobDeleteAll => snd (deleteAllJobs d)
  end.

(** What the job store keeps true of every row: the key is the job's id, the
    dirty flag is 0 or 1, and the local version is at least 1. *)
Definition job_row_ok (k : string) (l : LocalJob) : Prop :=
  job_id (data l) = k /\ (is_dirty l = 0 \/ is_dirty l = 1) /\ 1 <= local_version l.

(** The sum of a list of delays. *)
Definition total (delays : list Z) : Z := foldr Z.add 0 delays.

(** * Properties *)

(** ** The mutation queue *)

Section queue_facts.
Implicit Types (q : list SyncQueueRow) (r : SyncQueueRow).

Lemma filter_bool_cons (f : SyncQueueRow -> bool) r q :
  filter (fun x => f x) (r :: q)
  = if f r then r :: filter (fun x => f x) q else filter (fun x => f x) q.
Proof.
  destruct (f r) eqn:E.
  - rewrite filter_cons_True; [done | by rewrite E].
  - rewrite filter_cons_False; [done | rewrite E; intros []].
Qed.

Lemma filter_bool_app (f : SyncQueueRow -> bool) q1 q2 :
  filter (fun x => f x) (q1 ++ q2)
  = filter (fun x => f x) q1 ++ filter (fun x => f x) q2.
Proof. apply filter_app. Qed.

(** Selecting with [f] after discarding with [g], when [f] implies [g]. *)
Lemma filter_after_discard (f g : SyncQueueRow -> bool) q :
  (forall r, f r = true -> g r = true) ->
  filter (fun x => f x) (filter (fun x => negb (g x)) q) = [].
Proof.
  intros Hfg. induction q as [|r q IH]; [done|].
  rewrite (filter_bool_cons (fun x => negb (g x))). simpl.
  destruct (g r) eqn:Eg; simpl; [exact IH|].
  rewrite filter_bool_cons.
  destruct (f r) eqn:Ef; [|exact IH].
  apply Hfg in Ef. congruence.
Qed.

(** Selecting with [f] is blind to a discard by [g] when the two never
    hold together. *)
Lemma filter_discard_disjoint (f g : SyncQueueRow -> bool) q :
  (forall r, f r = true -> g r = false) ->
  filter (fun x => f x) (filter (fun x => negb (g x)) q) = filter (fun x => f x) q.
Proof.
  intros Hfg. induction q as [|r q IH]; [done|].
  rewrite (filter_bool_cons (fun x => negb (g x))), (filter_bool_cons f).
  destruct (f r) eqn:Ef.
  - rewrite (Hfg _ Ef). simpl. rewrite filter_bool_cons, Ef. by f_equal.
  - destruct (g r); simpl; [exact IH|]. by rewrite filter_bool_cons, Ef.
Qed.

Lemma filter_discard_length (f g : SyncQueueRow -> bool) q :
  (length (filter (fun x => f x) (filter (fun x => negb (g x)) q))
   <= length (filter (fun x => f x) q))%nat.
Proof.
  induction q as [|r q IH]; [done|].
  rewrite (filter_bool_cons (fun x => negb (g x))), (filter_bool_cons f).
  destruct (g r); simpl.
  - destruct (f r); simpl; lia.
  - rewrite filter_bool_cons. destruct (f r); simpl; lia.
Qed.

(** Rewriting rows in place, when the rewrite keeps what [f] looks at. *)
Lemma filter_fmap_stable (f : SyncQueueRow -> bool) (h : SyncQueueRow -> SyncQueueRow) q :
  (forall r, f (h r) = f r) ->
  filter (fun x => f x) (h <$> q) = h <$> filter (fun x => f x) q.
Proof.
  intros Hh. induction q as [|r q IH]; [done|].
  rewrite fmap_cons, !filter_bool_cons, Hh.
  destruct (f r); [rewrite fmap_cons|]; by rewrite IH.
Qed.
End queue_facts.

Lemma same_entity_true et eid r :
  same_entity et eid r = true <-> entity_type r = et /\ entity_id r = eid.
Proof.
  unfold same_entity. rewrite andb_true_iff, !bool_decide_eq_true. tauto.
Qed.

(** What [addToQueue] leaves for the entity it was called for. *)
Lemma addToQueue_rows_of et eid act pl fp prio now d :
  rows_of et eid (sync_queue (snd (addToQueue et eid act pl fp prio now d)))
  = [mkRow (fst (addToQueue et eid act pl fp prio now d)) et eid act pl fp 0 None prio now].
Proof.
  unfold rows_of, addToQueue, addToQueue_delete, addToQueue_insert. cbn [snd fst sync_queue set_queue].
  rewrite filter_bool_app, filter_after_discard; [|auto].
  rewrite filter_bool_cons. cbn.
  unfold same_entity. cbn. by rewrite !bool_decide_eq_true_2.
Qed.

Lemma addToQueue_rows_of_other et eid act pl fp prio now d et' eid' :
  (et', eid') ≠ (et, eid) ->
  rows_of et' eid' (sync_queue (snd (addToQueue et eid act pl fp prio now d)))
  = rows_of et' eid' (sync_queue d).
Proof.
  intros Hne. unfold rows_of, addToQueue, addToQueue_delete, addToQueue_insert. cbn [snd fst sync_queue set_queue].
  rewrite filter_bool_app, filter_bool_cons.
  replace (same_entity et' eid' _) with false.
  - rewrite app_nil_r. apply filter_discard_disjoint.
    intros r [H1 H2]%same_entity_true.
    destruct (same_entity et eid r) eqn:E; [|done].
    apply same_entity_true in E as [E1 E2]. congruence.
  - symmetry. apply not_true_is_false. intros [H1 H2]%same_entity_true.
    cbn in *. congruence.
Qed.

Lemma applyOp_at_most_one d op :
  at_most_one_per_entity (sync_queue d) ->
  at_most_one_per_entity (sync_queue (applyOp d op)).
Proof.
  intros Hd et' eid'.
  destruct op as [et eid act pl fp prio now|i|i err|i|i|]; unfold applyOp;
    [|cbn [snd markItemSuccess markItemFailed removeFromQueue retryFailedItem
           clearQueue sync_queue set_queue]..].
  - destruct (decide ((et', eid') = (et, eid))) as [[= -> ->]|Hne].
    + by rewrite addToQueue_rows_of.
    + rewrite addToQueue_rows_of_other by done. apply Hd.
  - etrans; [apply filter_discard_length | apply Hd].
  - unfold rows_of. rewrite filter_fmap_stable, length_fmap; [apply Hd|].
    intros r. by destruct (has_id i r).
  - etrans; [apply filter_discard_length | apply Hd].
  - unfold rows_of. rewrite filter_fmap_stable, length_fmap; [apply Hd|].
    intros r. by destruct (has_id i r).
  - unfold rows_of. cbn. lia.
Qed.

Lemma history_at_most_one ops d :
  at_most_one_per_entity (sync_queue d) ->
  at_most_one_per_entity (sync_queue (foldl applyOp d ops)).
Proof.
  revert d. induction ops as [|op ops IH]; intros d Hd; [done|].
  cbn. apply IH, applyOp_at_most_one, Hd.
Qed.

(** The dedup invariant, for calls that run one after the other.
    (1) In every state the queue reaches from the empty table through any
        history of its operations, each run to its end before the next
        starts, each (entityType, entityId) pair has at most one row.
    (2) From any table whatsoever, N >= 1 enqueue calls in sequence for one
        entity leave exactly one row for it: the N-th call's action, payload,
        file path and priority, with retryCount 0 and no lastError.
    (3) An enqueue is: discard the entity's rows, then append the new row. *)
Lemma enqueue_dedup_serial :
  (forall ops, at_most_one_per_entity (sync_queue (foldl applyOp emptyDb ops)))
  /\ (forall et eid d (earlier : list Mutation) (nth : Mutation),
        exists i,
          rows_of et eid (sync_queue (foldl (enqueue et eid) d (earlier ++ [nth])))
          = [mkRow i et eid (m_action nth) (m_payload nth) (m_filePath nth)
                   0 None (m_priority nth) (m_now nth)])
  /\ (forall et eid act pl fp prio now d,
        let '(i, d') := addToQueue et eid act pl fp prio now d in
        sync_queue d'
        = filter (fun r => negb (same_entity et eid r)) (sync_queue d)
          ++ [mkRow i et eid act pl fp 0 None prio now]).
Proof.
  split; [|split].
  - intros ops. apply history_at_most_one. intros et eid. cbn. lia.
  - intros et eid d earlier nth. rewrite foldl_app. cbn.
    eexists. unfold enqueue at 1. apply addToQueue_rows_of.
  - intros. by cbn.
Qed.

Lemma max_rowid_app q r : max_rowid (q ++ [r]) = Z.max (max_rowid q) (row_id r).
Proof.
  induction q as [|r' q IH]; [cbn; lia|].
  change (max_rowid ((r' :: q) ++ [r])) with (Z.max (row_id r') (max_rowid (q ++ [r]))).
  change (max_rowid (r' :: q)) with (Z.max (row_id r') (max_rowid q)).
  rewrite IH. lia.
Qed.

(** C1 — the dedup invariant does not hold of the queue at all times.
    [addToQueue] awaits its DELETE and its INSERT one after the other, with
    no transaction around them, and the checklist store calls it without
    awaiting it.  Take two calls in flight for the same entity, with
    mutations [a] and [b], from any table.  The schedule DELETE, DELETE,
    INSERT a, INSERT b is one of their interleavings, and it leaves two rows
    for the entity, the row of [a] and the row of [b], with ids [i] and
    [i + 1]: the earlier intent survives next to the later one.  Only when
    the statements of the first call are all run before those of the second
    is the outcome that of two calls in sequence. *)
Theorem C1_interleaved_enqueue_duplicates (et : SyncEntityType) (eid : string)
    (a b : Mutation) (d : Db) :
  let schedule := [StepDelete et eid; StepDelete et eid;
                   StepInsert et eid a; StepInsert et eid b] in
  let d' := foldl runStep d schedule in
  interleaving (steps_of et eid a) (steps_of et eid b) schedule
  /\ (exists i,
        rows_of et eid (sync_queue d')
        = [mkRow i et eid (m_action a) (m_payload a) (m_filePath a) 0 None
                 (m_priority a) (m_now a);
           mkRow (i + 1) et eid (m_action b) (m_payload b) (m_filePath b) 0 None
                 (m_priority b) (m_now b)])
  /\ ~ at_most_one_per_entity (sync_queue d')
  /\ foldl runStep d (steps_of et eid a ++ steps_of et eid b)
     = enqueue et eid (enqueue et eid d a) b.
Proof.
  intros schedule d'.
  assert (Hrows : exists i,
             rows_of et eid (sync_queue d')
             = [mkRow i et eid (m_action a) (m_payload a) (m_filePath a) 0 None
                      (m_priority a) (m_now a);
                mkRow (i + 1) et eid (m_action b) (m_payload b) (m_filePath b) 0 None
                      (m_priority b) (m_now b)]).
  { subst d' schedule. cbn [foldl runStep].
    set (d2 := snd (addToQueue_delete et eid (snd (addToQueue_delete et eid d)))).
    exists (next_rowid d2).
    unfold addToQueue_insert. cbn [snd sync_queue].
    replace (next_rowid (mkDb _ (next_rowid d2) (jobs d2))) with (next_rowid d2 + 1).
    2:{ unfold next_rowid. cbn [sync_queue sync_queue_seq].
        rewrite max_rowid_app. cbn [row_id]. lia. }
    assert (Hnone : filter (fun r => same_entity et eid r) (sync_queue d2) = []).
    { subst d2. unfold addToQueue_delete. cbn [snd sync_queue set_queue].
      by apply filter_after_discard. }
    assert (Hsame : forall i act pl fp prio now,
               same_entity et eid (mkRow i et eid act pl fp 0 None prio now) = true)
      by (intros; by apply same_entity_true).
    generalize (next_rowid d2). intros i.
    unfold rows_of. rewrite !filter_bool_app, Hnone, !filter_bool_cons, !Hsame.
    done. }
  split_and!.
  - apply interleaving_left, interleaving_right, interleaving_left, interleaving_right,
      interleaving_nil.
  - done.
  - destruct Hrows as [i Hrows]. intros Hone.
    specialize (Hone et eid). rewrite Hrows in Hone. cbn in Hone. lia.
  - done.
Qed.

(** *** [ORDER BY] *)

Lemma insert_by_Permutation {A} (R : relation A) `{!∀ x y, Decision (R x y)} x l :
  insert_by R x l ≡ₚ x :: l.
Proof.
  induction l as [|y l IH]; [done|]. cbn [insert_by].
  destruct (decide (R x y)); [done|]. rewrite IH. apply Permutation_swap.
Qed.

Lemma order_by_Permutation {A} (R : relation A) `{!∀ x y, Decision (R x y)} l :
  order_by R l ≡ₚ l.
Proof.
  induction l as [|x l IH]; [done|].
  cbn [order_by foldr]. fold (order_by R l). by rewrite insert_by_Permutation, IH.
Qed.

Lemma StronglySorted_insert_by {A} (R : relation A) `{!∀ x y, Decision (R x y)}
    `{!Total R, !Transitive R} x l :
  StronglySorted R l -> StronglySorted R (insert_by R x l).
Proof.
  induction 1 as [|y l Hl IH Hy]; cbn [insert_by].
  - repeat constructor.
  - destruct (decide (R x y)) as [Hxy|Hxy].
    + constructor; [by constructor|].
      constructor; [done|]. eapply Forall_impl; [exact Hy|]. intros z Hz. by trans y.
    + constructor; [done|].
      rewrite insert_by_Permutation. constructor; [|done].
      by destruct (base.total R x y).
Qed.

Lemma StronglySorted_order_by {A} (R : relation A) `{!∀ x y, Decision (R x y)}
    `{!Total R, !Transitive R} l :
  StronglySorted R (order_by R l).
Proof.
  induction l as [|x l IH]; [constructor|].
  cbn [order_by foldr]. by apply StronglySorted_insert_by.
Qed.

(** Rows that are in order already, in particular rows that all tie, come
    back as the scan gave them. *)
Lemma order_by_sorted {A} (R : relation A) `{!∀ x y, Decision (R x y)} l :
  StronglySorted R l -> order_by R l = l.
Proof.
  induction 1 as [|x l Hl IH Hx]; [done|].
  cbn [order_by foldr]. fold (order_by R l). rewrite IH.
  destruct l as [|y l']; [done|]. cbn [insert_by].
  apply Forall_cons in Hx as [Hxy _]. by rewrite decide_True.
Qed.

(** A queue whose eligible rows are in order already -- all of one priority
    and enqueued in the order of their timestamps, say -- is read in rowid
    order. *)
Lemma getNextQueueItems_in_order limit d :
  StronglySorted queue_order (filter (fun r => retry_count r <? 3) (sync_queue d)) ->
  fst (getNextQueueItems limit d)
  = rowToItem <$> sql_limit limit (filter (fun r => retry_count r <? 3) (sync_queue d)).
Proof. intros Hsorted. unfold getNextQueueItems. cbn [fst]. by rewrite order_by_sorted. Qed.

Global Instance queue_order_total : Total queue_order.
Proof. intros a b. unfold queue_order. lia. Qed.

Global Instance queue_order_trans : Transitive queue_order.
Proof. intros a b c. unfold queue_order. lia. Qed.

Lemma sorted_eligible_rows q :
  StronglySorted queue_order (order_by queue_order q) /\
  order_by queue_order q ≡ₚ q.
Proof.
  split.
  - apply StronglySorted_order_by; apply _.
  - apply order_by_Permutation.
Qed.

Lemma sql_limit_prefix {A} limit (l : list A) :
  0 <= limit ->
  sql_limit limit l = take (Z.to_nat limit) l /\
  l = sql_limit limit l ++ drop (Z.to_nat limit) l.
Proof.
  intros H. unfold sql_limit.
  destruct (limit <? 0) eqn:E; [lia|]. by rewrite take_drop.
Qed.

(** For the negative limits the parameter's type also admits, SQLite puts
    no bound on the rows returned. *)
Lemma getNextQueueItems_negative_limit limit d :
  limit < 0 ->
  fst (getNextQueueItems limit d)
  = rowToItem <$> order_by queue_order (filter (fun r => retry_count r <? 3) (sync_queue d)).
Proof.
  intros H. unfold getNextQueueItems, sql_limit. cbn.
  by destruct (limit <? 0) eqn:E; [|lia].
Qed.

(** C7 — nextBatch.  For every queue and every limit (a row count, so
    non-negative), [getNextQueueItems limit]:
    - returns at most [limit] items, namely min(limit, number of eligible rows);
    - returns only items with retryCount < 3, each of them a row of the queue;
    - returns them ordered by priority descending, then createdAt ascending,
      and they are the first [limit] rows of the eligible rows so ordered;
    - leaves the database as it was. *)
Theorem C7_nextBatch (limit : Z) (d : Db) :
  0 <= limit ->
  let eligible := filter (fun r => retry_count r <? 3) (sync_queue d) in
  let '(batch, d') := getNextQueueItems limit d in
  Z.of_nat (length batch) <= limit
  /\ length batch = (Z.to_nat limit `min` length eligible)%nat
  /\ Forall (fun item => retryCount item < 3) batch
  /\ batch ⊆+ rowToItem <$> sync_queue d
  /\ StronglySorted item_order batch
  /\ (exists rest, rowToItem <$> eligible ≡ₚ batch ++ rest
                   /\ StronglySorted item_order (batch ++ rest))
  /\ d' = d.
Proof.
  intros Hlimit eligible. unfold getNextQueueItems. fold eligible.
  destruct (sorted_eligible_rows eligible) as [Hsorted Hperm].
  destruct (sql_limit_prefix limit (order_by queue_order eligible) Hlimit)
    as [Htake Hsplit].
  set (sorted := order_by queue_order eligible) in *.
  assert (Hlen : length (sql_limit limit sorted)
                 = (Z.to_nat limit `min` length eligible)%nat).
  { rewrite Htake, length_take. by rewrite Hperm. }
  assert (Hitems : StronglySorted item_order (rowToItem <$> sorted)).
  { apply (StronglySorted_fmap rowToItem queue_order); [|done]. by intros x y. }
  rewrite Hsplit, fmap_app in Hitems.
  repeat split.
  - rewrite length_fmap, Hlen. lia.
  - by rewrite length_fmap.
  - apply Forall_fmap, Forall_forall. intros r Hr. cbn.
    assert (r ∈ eligible) as Hel.
    { rewrite <- Hperm. rewrite Hsplit. apply elem_of_app. by left. }
    apply list_elem_of_filter in Hel as [Hel _].
    apply Is_true_true in Hel. lia.
  - apply fmap_submseteq. trans sorted.
    + rewrite Hsplit at 2. by apply submseteq_inserts_r.
    + rewrite Hperm. apply sublist_submseteq, sublist_filter.
  - by apply StronglySorted_app_1_l in Hitems.
  - exists (rowToItem <$> drop (Z.to_nat limit) sorted). split; [|done].
    by rewrite <- fmap_app, <- Hsplit, Hperm.
Qed.

(** A queue with priorities 0, 10, 5 and an item that failed three times,
    read with limit 2. *)
Lemma C7_nextBatch_witness :
  let d := mkDb [mkRow 1 job "job-1" update JNull None 0 None 0 100;
                 mkRow 2 job "job-2" update JNull None 0 None 10 101;
                 mkRow 3 job "job-3" update JNull None 0 None 5 102;
                 mkRow 4 job "job-4" update JNull None 3 (Some "Error") 20 103] 4 ∅ in
  0 <= 2
  /\ Z.of_nat (length (fst (getNextQueueItems 2 d))) <= 2
  /\ snd (getNextQueueItems 2 d) = d.
Proof.
  intros d. split; [lia|].
  generalize (C7_nextBatch 2 d ltac:(lia)).
  destruct (getNextQueueItems 2 d) as [batch d'].
  intros (H & _ & _ & _ & _ & _ & Hd). by split.
Defined.

(** ** The local job store *)

Lemma set_jobs_same d : set_jobs (jobs d) d = d.
Proof. by destruct d. Qed.

(** A batch is merged job by job, each against the table the previous ones
    left, all with the clock read once. *)
Lemma saveJobs_cons j rest fromServer now d :
  snd (saveJobs (j :: rest) fromServer now d)
  = snd (saveJobs rest fromServer now (snd (saveJob j fromServer now d))).
Proof. done. Qed.

Lemma saveJobs_nil fromServer now d : snd (saveJobs [] fromServer now d) = d.
Proof. apply set_jobs_same. Qed.

Lemma saveJobs_single j fromServer now d :
  snd (saveJobs [j] fromServer now d) = snd (saveJob j fromServer now d).
Proof. done. Qed.

Lemma server_write_refused j now d l :
  jobs d !! job_id j = Some l ->
  server_may_overwrite l j = false ->
  snd (saveJob j true now d) = d.
Proof.
  intros Hl Hg. unfold saveJob, upsert_job. cbn [snd].
  rewrite Hl, Hg. apply set_jobs_same.
Qed.

Lemma server_write_applied j now d l :
  jobs d !! job_id j = Some l ->
  server_may_overwrite l j = true ->
  jobs (snd (saveJob j true now d)) = <[job_id j := server_update j now l]> (jobs d).
Proof.
  intros Hl Hg. unfold saveJob, upsert_job. cbn [snd set_jobs jobs].
  by rewrite Hl, Hg.
Qed.

(** C2 — dirty-wins merge.  For an existing record with isDirty set and a
    stored serverVersion [sv], a server-origin upsert ([saveJob], or the same
    job met in a [saveJobs] batch):
    - leaves the whole table, hence the record, unchanged when the incoming
      version is <= [sv];
    - when the incoming version is > [sv], replaces data by the incoming job,
      sets serverVersion to the incoming version and clears isDirty, touching
      no other record. *)
Theorem C2_dirty_wins (j : Job) (now : Z) (d : Db) (l : LocalJob) (sv : Z) :
  jobs d !! job_id j = Some l ->
  is_dirty l ≠ 0 ->
  server_version l = Some sv ->
  (version j <= sv ->
     snd (saveJob j true now d) = d
     /\ forall rest, snd (saveJobs (j :: rest) true now d) = snd (saveJobs rest true now d))
  /\ (sv < version j ->
        exists l', jobs (snd (saveJob j true now d)) !! job_id j = Some l'
          /\ data l' = j /\ server_version l' = Some (version j) /\ is_dirty l' = 0
          /\ (forall other, other ≠ job_id j ->
                jobs (snd (saveJob j true now d)) !! other = jobs d !! other)
          /\ snd (saveJobs [j] true now d) = snd (saveJob j true now d)).
Proof.
  intros Hl Hdirty Hsv.
  assert (Hguard : server_may_overwrite l j = (sv <? version j)).
  { unfold server_may_overwrite, server_version_or_zero. rewrite Hsv. cbn.
    by destruct (Z.eqb_spec (is_dirty l) 0). }
  split; intros Hv.
  - assert (Hsame : snd (saveJob j true now d) = d).
    { apply (server_write_refused _ _ _ l); [done|]. rewrite Hguard. lia. }
    split; [done|]. intros rest. by rewrite saveJobs_cons, Hsame.
  - assert (Hg : server_may_overwrite l j = true) by (rewrite Hguard; lia).
    exists (server_update j now l).
    rewrite (server_write_applied _ _ _ l) by done.
    repeat split.
    + apply lookup_insert_eq.
    + intros other Hne. by apply lookup_insert_ne.
Qed.

(** A dirty job-1 at serverVersion 3 meets version 3, then version 4. *)
Lemma C2_dirty_wins_witness :
  let stored := mkJob "job-1" 3 (JObj [("status", JStr "in_progress")]) in
  let l := mkLocalJob stored (Some 3) 2 1 (Some 50) 10 in
  let d := mkDb [] 0 {[ "job-1" := l ]} in
  let same := mkJob "job-1" 3 (JObj [("status", JStr "pending")]) in
  let newer := mkJob "job-1" 4 (JObj [("status", JStr "completed")]) in
  snd (saveJob same true 60 d) = d
  /\ (data <$> jobs (snd (saveJob newer true 60 d)) !! "job-1") = Some newer.
Proof.
  intros stored l d same newer. split.
  - apply (C2_dirty_wins same 60 d l 3); [done | done | done | cbn; lia].
  - destruct (C2_dirty_wins newer 60 d l 3) as [_ H]; [done | done | done |].
    destruct H as (l' & Hl' & Hdata & _); [cbn; lia|].
    cbn [job_id newer] in Hl'. by rewrite Hl', <- Hdata.
Defined.

(** C9 — server-origin upsert outside the dirty-wins guard.  An existing
    record that is not dirty is overwritten whatever the incoming version
    (also one <= the stored serverVersion), and so is a dirty record whose
    serverVersion is null when the incoming version is > 0: data is the
    incoming job, serverVersion the incoming version, isDirty cleared,
    lastSyncedAt the time of the write; localVersion and createdAt stay, and
    no other record is touched. *)
Theorem C9_server_overwrite (j : Job) (now : Z) (d : Db) (l : LocalJob) :
  jobs d !! job_id j = Some l ->
  is_dirty l = 0 \/ (is_dirty l ≠ 0 /\ server_version l = None /\ 0 < version j) ->
  jobs (snd (saveJob j true now d))
  = <[job_id j := mkLocalJob j (Some (version j)) (local_version l) 0 (Some now)
                             (job_created_at l)]> (jobs d)
  /\ snd (saveJobs [j] true now d) = snd (saveJob j true now d).
Proof.
  intros Hl Hcase. split; [|done].
  apply (server_write_applied _ _ _ l); [done|].
  unfold server_may_overwrite, server_version_or_zero.
  destruct Hcase as [-> | (_ & -> & Hv)]; [done|]. cbn.
  apply orb_true_iff. right. lia.
Qed.

(** A clean job-1 at serverVersion 7 meets the older version 5; a dirty
    job-2 that never synced meets version 1. *)
Lemma C9_server_overwrite_witness :
  let clean := mkLocalJob (mkJob "job-1" 7 JNull) (Some 7) 1 0 (Some 50) 10 in
  let fresh := mkLocalJob (mkJob "job-2" 0 JNull) None 1 1 None 20 in
  let d := mkDb [] 0 {[ "job-1" := clean; "job-2" := fresh ]} in
  let older := mkJob "job-1" 5 (JObj [("status", JStr "pending")]) in
  let first := mkJob "job-2" 1 (JObj [("status", JStr "pending")]) in
  jobs (snd (saveJob older true 60 d)) !! "job-1"
    = Some (mkLocalJob older (Some 5) 1 0 (Some 60) 10)
  /\ jobs (snd (saveJob first true 60 d)) !! "job-2"
    = Some (mkLocalJob first (Some 1) 1 0 (Some 60) 20).
Proof.
  intros clean fresh d older first. split.
  - destruct (C9_server_overwrite older 60 d clean) as [-> _];
      [done | by left |]. apply lookup_insert_eq.
  - destruct (C9_server_overwrite first 60 d fresh) as [-> _];
      [done | right; split; [done | split; [done | cbn; lia]] |]. apply lookup_insert_eq.
Defined.

(** ** The monad *)

Lemma bind_returns {A B} (m : M A) (k : A -> M B) w a w' :
  m w = (Returns a, w') -> bind m k w = k a w'.
Proof. unfold bind. by intros ->. Qed.

Lemma bind_throws {A B} (m : M A) (k : A -> M B) w e w' :
  m w = (Throws e, w') -> bind m k w = (Throws e, w').
Proof. unfold bind. by intros ->. Qed.

Lemma try_catch_returns {A} (m : M A) h w a w' :
  m w = (Returns a, w') -> try_catch m h w = (Returns a, w').
Proof. unfold try_catch. by intros ->. Qed.

Lemma try_catch_throws {A} (m : M A) h w e w' :
  m w = (Throws e, w') -> try_catch m h w = h e w'.
Proof. unfold try_catch. by intros ->. Qed.

Lemma same_state_refl w : same_state w w.
Proof. by repeat split. Qed.

Lemma same_state_trans w1 w2 w3 :
  same_state w1 w2 -> same_state w2 w3 -> same_state w1 w3.
Proof. unfold same_state. intros (-> & -> & ->) (-> & -> & ->). done. Qed.

Lemma keeps_state_ret {A} (a : A) : keeps_state (ret a).
Proof. intros w. apply same_state_refl. Qed.

Lemma keeps_state_throw {A} e : keeps_state (@throw A e).
Proof. intros w. apply same_state_refl. Qed.

Lemma keeps_state_bind {A B} (m : M A) (k : A -> M B) :
  keeps_state m -> (forall a, keeps_state (k a)) -> keeps_state (bind m k).
Proof.
  intros Hm Hk w. unfold bind. specialize (Hm w).
  destruct (m w) as [[a|e] w1]; cbn in *; [|done].
  eapply same_state_trans; [exact Hm | apply Hk].
Qed.

Lemma keeps_state_try_catch {A} (m : M A) h :
  keeps_state m -> (forall e, keeps_state (h e)) -> keeps_state (try_catch m h).
Proof.
  intros Hm Hh w. unfold try_catch. specialize (Hm w).
  destruct (m w) as [[a|e] w1]; cbn in *; [done|].
  eapply same_state_trans; [exact Hm | apply Hh].
Qed.

Lemma keeps_state_apiClient req : keeps_state (apiClient req).
Proof. intros w. by repeat split. Qed.

Lemma keeps_state_sleep ms : keeps_state (sleep ms).
Proof. intros w. by repeat split. Qed.

Create HintDb frame.
#[local] Hint Resolve keeps_state_ret keeps_state_throw keeps_state_apiClient
  keeps_state_sleep : frame.

(** ** The transport policy *)

Lemma keeps_state_retryLoop {A} (fn : M A) m base rem lastError :
  keeps_state fn -> keeps_state (retryLoop fn m base rem lastError).
Proof.
  intros Hfn. revert lastError.
  induction rem as [|k IH]; intros lastError; cbn [retryLoop]; [auto with frame|].
  apply keeps_state_try_catch; [done|]. intros e.
  destruct (isRateLimitError e); cbn [negb]; [|auto with frame].
  apply keeps_state_bind; [|auto]. case_match; auto with frame.
Qed.

(** The wrapper hands back whatever a call that does not fail returns. *)
Lemma retryLoop_returns {A} (fn : M A) m base k lastError w a w' :
  fn w = (Returns a, w') ->
  retryLoop fn m base (S k) lastError w = (Returns a, w').
Proof. intros H. cbn [retryLoop]. by apply try_catch_returns. Qed.

(** An error that is not a rate limit goes straight through: no sleep, no
    second call. *)
Lemma retryLoop_passes_through {A} (fn : M A) m base k lastError w e w' :
  fn w = (Throws e, w') ->
  isRateLimitError e = false ->
  retryLoop fn m base (S k) lastError w = (Throws e, w').
Proof.
  intros H He. cbn [retryLoop]. rewrite (try_catch_throws _ _ _ _ _ H).
  by rewrite He.
Qed.

(** A rate limit with attempts left: sleep [base * 2^attempt], go round. *)
Lemma retryLoop_backs_off {A} (fn : M A) m base k lastError w e w' :
  fn w = (Throws e, w') ->
  isRateLimitError e = true ->
  (S (S k) <= m)%nat ->
  retryLoop fn m base (S (S k)) lastError w
  = retryLoop fn m base (S k) e (log_sleep (base * 2 ^ Z.of_nat (m - S (S k))) w').
Proof.
  intros H He Hm. remember (S k) as k' eqn:Ek. cbn [retryLoop]. subst k'.
  rewrite (try_catch_throws _ _ _ _ _ H), He. cbn [negb].
  replace (m - S (S k) <? m - 1)%nat with true; [done|].
  symmetry. apply Nat.ltb_lt. lia.
Qed.

(** A rate limit on the last attempt: the error is rethrown, without a sleep. *)
Lemma retryLoop_gives_up {A} (fn : M A) m base lastError w e w' :
  fn w = (Throws e, w') ->
  isRateLimitError e = true ->
  (1 <= m)%nat ->
  retryLoop fn m base 1 lastError w = (Throws e, w').
Proof.
  intros H He Hm. cbn [retryLoop].
  rewrite (try_catch_throws _ _ _ _ _ H), He. cbn [negb].
  replace (m - 1 <? m - 1)%nat with false; [done|].
  symmetry. apply Nat.ltb_ge. lia.
Qed.

Section transport_trace.
Variables (req : Request) (m : nat) (base : Z).

Lemma rate_limited_shift w ms i :
  rate_limited_at (log_sleep ms (log_call req w)) req i
  <-> rate_limited_at w req (S i).
Proof.
  unfold rate_limited_at. cbn [log_sleep log_call calls remote].
  rewrite length_app. cbn [length].
  by replace (length (calls w) + 1 + i)%nat with (length (calls w) + S i)%nat by lia.
Qed.

(** The run of the wrapper around one remote call: attempts [0 .. k] are
    made, where [k] is the first attempt that is not rate-limited, or the
    last attempt allowed. *)
Lemma retryLoop_trace k : forall rem w lastError,
  (k < rem)%nat -> (rem <= m)%nat ->
  (forall i, (i < k)%nat -> rate_limited_at w req i) ->
  ~ rate_limited_at w req k \/ rem = S k ->
  exists w',
    retryLoop (apiClient req) m base rem lastError w
    = (settle (remote w (length (calls w) + k) req), w')
    /\ calls w' = calls w ++ replicate (S k) req
    /\ slept w' = slept w ++ ((fun a => base * 2 ^ Z.of_nat a) <$> seq (m - rem) k)
    /\ same_state w w'.
Proof.
  induction k as [|k IH]; intros rem w lastError Hk Hm Hbefore Hlast.
  - destruct rem as [|r]; [lia|].
    exists (log_call req w). rewrite Nat.add_0_r in *.
    split; [|by rewrite app_nil_r].
    unfold rate_limited_at in Hlast. rewrite Nat.add_0_r in Hlast.
    destruct (remote w (length (calls w)) req) as [d|e] eqn:Hout; cbn [settle].
    + apply retryLoop_returns. unfold apiClient. by rewrite Hout.
    + destruct (isRateLimitError e) eqn:He.
      * destruct Hlast as [Hlast | [= ->]]; [by cbn in Hlast|].
        apply retryLoop_gives_up; [|done|lia].
        unfold apiClient. by rewrite Hout.
      * apply retryLoop_passes_through; [|done].
        unfold apiClient. by rewrite Hout.
  - destruct rem as [|[|r]]; [lia..|].
    pose proof (Hbefore 0%nat ltac:(lia)) as H0.
    unfold rate_limited_at in H0. rewrite Nat.add_0_r in H0.
    destruct (remote w (length (calls w)) req) as [d|e0] eqn:Hout; [done|].
    cbn in H0.
    rewrite (retryLoop_backs_off _ _ _ _ _ _ e0 (log_call req w)); [|by unfold apiClient; rewrite Hout|done|done].
    set (w2 := log_sleep _ (log_call req w)).
    destruct (IH (S r) w2 e0) as (w' & Hrun & Hcalls & Hslept & Hsame).
    + lia.
    + lia.
    + intros i Hi. apply rate_limited_shift, Hbefore. lia.
    + destruct Hlast as [Hlast | Hlast]; [left|right; lia].
      unfold w2. by rewrite rate_limited_shift.
    + exists w'. split; [|split; [|split]].
      * rewrite Hrun. do 2 f_equal. subst w2.
        cbn [log_sleep log_call calls remote]. rewrite length_app. cbn [length].
        f_equal. lia.
      * rewrite Hcalls. subst w2. cbn [log_sleep log_call calls].
        by rewrite <- app_assoc.
      * rewrite Hslept. subst w2. cbn [log_sleep log_call slept].
        rewrite <- app_assoc. f_equal. cbn [seq fmap list_fmap app].
        do 2 f_equal. f_equal. lia.
      * eapply same_state_trans; [|exact Hsame]. by repeat split.
Qed.
End transport_trace.

(** The run of the wrapper, with three attempts, around one remote call. *)
Lemma retryWithBackoff_run (req : Request) (base : Z) (w : World) :
  let outcome i := remote w (length (calls w) + i)%nat req in
  exists n w',
    (1 <= n <= 3)%nat
    /\ retryWithBackoffWith (apiClient req) 3 base w = (settle (outcome (n - 1)%nat), w')
    /\ calls w' = calls w ++ replicate n req
    /\ slept w' = slept w ++ backoff_delays base (n - 1)
    /\ (forall i, (i < n - 1)%nat -> rate_limited (outcome i) = true)
    /\ (rate_limited (outcome (n - 1)%nat) = true -> n = 3%nat)
    /\ same_state w w'.
Proof.
  intros outcome.
  assert (Hrun : forall k, (k < 3)%nat ->
          (forall i, (i < k)%nat -> rate_limited (outcome i) = true) ->
          rate_limited (outcome k) = false \/ k = 2%nat ->
          exists w',
            retryWithBackoffWith (apiClient req) 3 base w = (settle (outcome k), w')
            /\ calls w' = calls w ++ replicate (S k) req
            /\ slept w' = slept w ++ backoff_delays base k
            /\ same_state w w').
  { intros k Hk Hbefore Hlast.
    apply (retryLoop_trace req 3 base k 3 w (NonError None)); [lia | lia | done |].
    destruct Hlast as [Hlast | ->]; [left|by right].
    unfold rate_limited_at. fold (outcome k). by rewrite Hlast. }
  destruct (rate_limited (outcome 0%nat)) eqn:H0;
    [destruct (rate_limited (outcome 1%nat)) eqn:H1|].
  - destruct (Hrun 2%nat) as (w' & ? & ? & ? & ?); [lia | | by right |].
    { intros [|[|i]] Hi; [done | done | lia]. }
    exists 3%nat, w'. cbn [Nat.sub].
    split_and!; try done; try lia. intros [|[|i]] Hi; [done | done | lia].
  - destruct (Hrun 1%nat) as (w' & ? & ? & ? & ?); [lia | | by left |].
    { intros [|i] Hi; [done | lia]. }
    exists 2%nat, w'. cbn [Nat.sub].
    split_and!; try done; try lia; [|congruence]. intros [|i] Hi; [done | lia].
  - destruct (Hrun 0%nat) as (w' & ? & ? & ? & ?); [lia | | by left |].
    { intros i Hi. lia. }
    exists 1%nat, w'. cbn [Nat.sub].
    split_and!; try done; try lia. congruence.
Qed.

(** C8 — the transport retry wrapper, with its attempt cap of 3 (the default
    every call site uses; their base delay is 1000 ms), around one remote
    call [req].
    (1) It makes n attempts, 1 <= n <= 3, all the same call; every attempt
        before the last failed with a rate-limit response (nothing else is
        retried), and an attempt that is not rate-limited ends the run at
        once: it stops at the first such attempt, or at the third.  Between
        attempt i and attempt i+1 it sleeps base * 2^i.  The result is the
        outcome of the last attempt: its response, or its error rethrown --
        after three rate limits, the rate-limit error.
    (2) Whatever function it wraps, an error that is not a rate limit is
        rethrown at once, from the world the failed call left.
    (3) In particular a conflict response (status 409, or code
        VERSION_CONFLICT under a status other than 429) is not retried. *)
Theorem C8_transport_policy (req : Request) (base : Z) (w : World) :
  let outcome i := remote w (length (calls w) + i)%nat req in
  (exists n w',
      (1 <= n <= 3)%nat
      /\ retryWithBackoffWith (apiClient req) 3 base w = (settle (outcome (n - 1)%nat), w')
      /\ calls w' = calls w ++ replicate n req
      /\ slept w' = slept w ++ backoff_delays base (n - 1)
      /\ (forall i, (i < n - 1)%nat -> rate_limited (outcome i) = true)
      /\ (rate_limited (outcome (n - 1)%nat) = true -> n = 3%nat)
      /\ same_state w w')
  /\ (forall A (fn : M A), retryWithBackoff fn = retryWithBackoffWith fn 3 1000)
  /\ (forall A (fn : M A) w0 e w1,
        fn w0 = (Throws e, w1) -> isRateLimitError e = false ->
        retryWithBackoffWith fn 3 base w0 = (Throws e, w1))
  /\ (forall A (fn : M A) w0 status code msg w1,
        fn w0 = (Throws (AxiosError status code msg), w1) ->
        isVersionConflict (AxiosError status code msg) = true ->
        status ≠ Some 429 ->
        retryWithBackoffWith fn 3 base w0 = (Throws (AxiosError status code msg), w1)).
Proof.
  intros outcome. split_and!.
  - apply retryWithBackoff_run.
  - done.
  - intros A fn w0 e w1 Hfn He. by apply retryLoop_passes_through.
  - intros A fn w0 status code msg w1 Hfn _ Hs.
    apply retryLoop_passes_through; [done|].
    cbn. by apply bool_decide_eq_false.
Qed.

(** The wrapper at work: two rate limits, then success. *)
Example retryWithBackoff_third_time_lucky :
  let tooMany := AxiosError (Some 429) (Some "RATE_LIMIT_EXCEEDED") "Too Many Requests" in
  let w := mkWorld emptyDb initialState 0 [] []
             (fun n _ => match n with
                         | 0%nat | 1%nat => Rejected tooMany
                         | _ => Resolved NoData
                         end) in
  let '(r, w') := retryWithBackoff (apiClient (GetJob "job-1")) w in
  r = Returns NoData
  /\ calls w' = [GetJob "job-1"; GetJob "job-1"; GetJob "job-1"]
  /\ slept w' = [1000; 2000]
  /\ clock w' = 3000.
Proof. vm_compute. done. Qed.

(** ** The push phase *)

Lemma with_db_same w : with_db (db w) w = w.
Proof. by destruct w. Qed.

(** [processQueueItem] makes the one call [request_of] names, or none. *)
Lemma processQueueItem_run item w :
  processQueueItem item w
  = match request_of item with
    | None => (if payload_unreadable item then Throws typeError else Returns tt, w)
    | Some req =>
        (match remote w (length (calls w)) req with
         | Resolved _ => Returns tt
         | Rejected e => Throws e
         end, log_call req w)
    end.
Proof.
  unfold processQueueItem, request_of, payload_unreadable.
  destruct (entityType item); try done;
    destruct (decide (action item = update)) as [Hact|Hact];
    try done; try (by destruct (payload item); rewrite ?bool_decide_eq_false_2).
  - unfold bind, apiClient. by destruct (remote w _ _).
  - destruct (payload item) eqn:Hpl; try (by rewrite bool_decide_eq_true_2);
      (destruct (truthy _ && truthy _); unfold bind, apiClient;
       by destruct (remote w _ _)).
Qed.

Lemma keeps_state_processQueueItem item : keeps_state (processQueueItem item).
Proof.
  intros w. rewrite processQueueItem_run.
  destruct (request_of item); [|destruct (payload_unreadable item)]; by repeat split.
Qed.

Lemma keeps_state_attempt item :
  keeps_state (retryWithBackoff (processQueueItem item)).
Proof. apply keeps_state_retryLoop, keeps_state_processQueueItem. Qed.

(** The resolver never throws and never touches the queue or the store; when
    the item is a job it fetches the job once and, if the fetch yields one,
    stores it as a server-origin write. *)
Lemma handleConflictServerWins_run item w :
  exists w2,
    handleConflictServerWins item w = (Returns tt, w2)
    /\ sync_queue (db w2) = sync_queue (db w)
    /\ store w2 = store w /\ remote w2 = remote w /\ slept w2 = slept w
    /\ calls w2 = calls w ++ (if decide (entityType item = job)
                              then [GetJob (entityId item)] else [])
    /\ (forall serverJob,
          entityType item = job ->
          remote w (length (calls w)) (GetJob (entityId item))
            = Resolved (JobData serverJob) ->
          db w2 = snd (saveJob serverJob true (clock w / 1000) (db w))).
Proof.
  unfold handleConflictServerWins, try_catch.
  destruct (decide (entityType item = job)) as [Hjob|Hjob].
  - unfold bind at 1, apiClient.
    destruct (remote w (length (calls w)) (GetJob (entityId item)))
      as [[|serverJob|p]|e] eqn:Hout; cbn;
      eexists; (split; [reflexivity|]); cbn; split_and!; try done.
    intros ? _ [= <-]. done.
  - exists w. rewrite app_nil_r. split_and!; try done.
Qed.

(** What one iteration of the push loop does to the queue: the item's rows
    are deleted (success, or conflict after the resolver ran), or the loop
    breaks with the database as it was (rate limit), or the item's rows are
    marked failed with the error's message. *)
Lemma pushItem_effect item w :
  exists b w',
    pushItem item w = (Returns b, w')
    /\ store w' = store w /\ remote w' = remote w
    /\ ((b = false /\ sync_queue (db w')
                     = filter (fun r => negb (has_id (id item) r)) (sync_queue (db w)))
        \/ (b = true /\ db w' = db w)
        \/ (b = false /\ exists msg,
              sync_queue (db w')
              = (fun r => if has_id (id item) r then fail_row msg r else r)
                  <$> sync_queue (db w))).
Proof.
  unfold pushItem, try_catch. unfold bind at 1.
  pose proof (keeps_state_attempt item w) as (Hdb & Hst & Hrem).
  destruct (retryWithBackoff (processQueueItem item) w) as [[[]|e] w1]; cbn in *.
  - eexists _, _. split; [reflexivity|]. cbn. rewrite Hdb. split_and!; auto.
  - destruct (isVersionConflict e).
    + unfold bind at 1.
      destruct (handleConflictServerWins_run item w1)
        as (w2 & -> & Hq & Hst2 & Hrem2 & _).
      eexists _, _. split; [reflexivity|]. cbn. rewrite Hq, Hdb.
      split_and!; [congruence | congruence | auto].
    + destruct (isRateLimitError e).
      * eexists _, _. split; [reflexivity|]. split_and!; auto.
      * eexists _, _. split; [reflexivity|]. cbn. rewrite Hdb. split_and!; eauto.
Qed.

Lemma rows_with_id_deleted i q :
  rows_with_id i (filter (fun r => negb (has_id i r)) q) = [].
Proof. unfold rows_with_id. by apply filter_after_discard. Qed.

Lemma request_of_none item :
  entityType item = photo \/ entityType item = signature \/ action item ≠ update ->
  request_of item = None.
Proof.
  unfold request_of. intros [-> | [-> | Hact]]; [done..|].
  destruct (entityType item); try done; by destruct (decide (action item = update)).
Qed.

Lemma payload_readable item :
  entityType item = photo \/ entityType item = signature \/ action item ≠ update ->
  payload_unreadable item = false.
Proof.
  unfold payload_unreadable. intros [-> | [-> | Hact]]; [done..|].
  destruct (entityType item), (payload item); try done.
  by apply bool_decide_eq_false.
Qed.

(** C10 — items the push phase has nothing to send for.  For a queue item
    whose entityType is photo or signature, or whose action is not update,
    [processQueueItem] returns without a remote call (the world is exactly as
    before), and the push loop then marks the item success: its row is
    deleted from the queue, nothing else changes, and the loop goes on. *)
Theorem C10_silent_success (item : SyncQueueItem) (w : World) :
  entityType item = photo \/ entityType item = signature \/ action item ≠ update ->
  let w' := after_db (markItemSuccess (id item)) w in
  processQueueItem item w = (Returns tt, w)
  /\ pushItem item w = (Returns false, w')
  /\ calls w' = calls w /\ slept w' = slept w
  /\ sync_queue (db w') = filter (fun r => negb (has_id (id item) r)) (sync_queue (db w))
  /\ rows_with_id (id item) (sync_queue (db w')) = []
  /\ (forall rest, pushLoop (item :: rest) w = pushLoop rest w').
Proof.
  intros Hitem w'.
  assert (Hrun : processQueueItem item w = (Returns tt, w)).
  { by rewrite processQueueItem_run, request_of_none, payload_readable. }
  assert (Hpush : pushItem item w = (Returns false, w')).
  { unfold pushItem. apply try_catch_returns.
    erewrite bind_returns; [|by apply retryLoop_returns]. done. }
  split_and!; try done.
  - apply rows_with_id_deleted.
  - intros rest. cbn [pushLoop]. by rewrite (bind_returns _ _ _ _ _ Hpush).
Qed.

(** A photo upload queued next to a job update: the photo leaves the queue
    without a call. *)
Lemma C10_silent_success_witness :
  let photoRow := mkRow 1 photo "photo-1" create (JObj [("jobId", JStr "job-1")])
                        (Some "/path/to/photo.jpg") 0 None 0 100 in
  let jobRow := mkRow 2 job "job-1" update (JObj [("version", JNum 2)]) None 0 None 10 101 in
  let w := mkWorld (mkDb [photoRow; jobRow] 2 ∅) initialState 0 [] []
                   (fun _ _ => Rejected (OtherError "Network Error")) in
  let w' := snd (pushItem (rowToItem photoRow) w) in
  calls w' = [] /\ sync_queue (db w') = [jobRow].
Proof.
  intros photoRow jobRow w w'.
  destruct (C10_silent_success (rowToItem photoRow) w) as (_ & Hpush & _);
    [by left|].
  subst w'. rewrite Hpush. by vm_compute.
Defined.

(** A failed push attempt: either the item had a request to send, the
    remote service rejected it, and nothing but the call log changed; or the
    payload could not be read, and nothing changed at all. *)
Lemma processQueueItem_throws item w e w1 :
  processQueueItem item w = (Throws e, w1) ->
  (exists req, request_of item = Some req
     /\ remote w (length (calls w)) req = Rejected e
     /\ w1 = log_call req w)
  \/ (request_of item = None /\ e = typeError /\ w1 = w).
Proof.
  rewrite processQueueItem_run. destruct (request_of item) as [req|].
  - destruct (remote w (length (calls w)) req) as [d|e'] eqn:Hout; [done|].
    intros [= -> <-]. left. by exists req.
  - destruct (payload_unreadable item); [|done]. intros [= <- <-]. by right.
Qed.

(** A push attempt rejected by the remote service: the thrown errors that
    carry a response. *)
Lemma processQueueItem_rejected item w e w1 :
  processQueueItem item w = (Throws e, w1) ->
  isVersionConflict e = true \/ isRateLimitError e = true ->
  exists req, request_of item = Some req
    /\ remote w (length (calls w)) req = Rejected e
    /\ w1 = log_call req w.
Proof.
  intros [Hreq | (_ & -> & _)]%processQueueItem_throws [He | He]; done.
Qed.

(** *** Rows and ids *)

Lemma has_id_true i r : has_id i r = true <-> row_id r = i.
Proof. unfold has_id. apply bool_decide_eq_true. Qed.

Lemma filter_fmap_fixed (f : SyncQueueRow -> bool) (h : SyncQueueRow -> SyncQueueRow)
    (q : list SyncQueueRow) :
  (forall r, f (h r) = f r) ->
  (forall r, f r = true -> h r = r) ->
  filter (fun x => f x) (h <$> q) = filter (fun x => f x) q.
Proof.
  intros Hf Hh. rewrite filter_fmap_stable by done.
  induction q as [|r q IH]; [done|].
  rewrite filter_bool_cons. destruct (f r) eqn:E; [|done].
  rewrite fmap_cons, IH. by rewrite Hh.
Qed.

Lemma filter_bool_none (f : SyncQueueRow -> bool) (q : list SyncQueueRow) :
  (forall r, r ∈ q -> f r = false) -> filter (fun x => f x) q = [].
Proof.
  induction q as [|r q IH]; intros H; [done|].
  rewrite filter_bool_cons, (H r) by apply list_elem_of_here.
  apply IH. intros r' Hr'. apply H. by apply list_elem_of_further.
Qed.

Lemma rows_with_id_NoDup (q : list SyncQueueRow) r :
  NoDup (row_id <$> q) -> r ∈ q -> rows_with_id (row_id r) q = [r].
Proof.
  unfold rows_with_id. induction q as [|r' q IH]; intros Hnd Hr.
  - by apply elem_of_nil in Hr.
  - rewrite fmap_cons in Hnd. apply NoDup_cons in Hnd as [Hfresh Hnd].
    rewrite filter_bool_cons. apply elem_of_cons in Hr as [<- | Hr].
    + replace (has_id (row_id r) r) with true by (symmetry; by apply has_id_true).
      f_equal. apply filter_bool_none. intros x Hx.
      apply not_true_is_false. intros Hid%has_id_true.
      apply Hfresh. rewrite <- Hid. by apply list_elem_of_fmap_2.
    + destruct (has_id (row_id r) r') eqn:E; [|by apply IH].
      apply has_id_true in E. exfalso. apply Hfresh. rewrite E.
      by apply list_elem_of_fmap_2.
Qed.

Lemma sql_limit_sublist {A} limit (l : list A) : sql_limit limit l `sublist_of` l.
Proof. unfold sql_limit. destruct (limit <? 0); [done | apply sublist_take]. Qed.

(** A batch is made of rows of the queue, each at most once. *)
Lemma batch_rows limit d :
  exists rows, fst (getNextQueueItems limit d) = rowToItem <$> rows
               /\ rows ⊆+ sync_queue d.
Proof.
  eexists. split; [reflexivity|].
  trans (order_by queue_order (filter (fun r => retry_count r <? 3) (sync_queue d))).
  - apply sublist_submseteq, sql_limit_sublist.
  - rewrite order_by_Permutation. apply sublist_submseteq, sublist_filter.
Qed.

Lemma batch_NoDup limit d :
  NoDup (row_id <$> sync_queue d) ->
  NoDup (id <$> fst (getNextQueueItems limit d)).
Proof.
  intros Hnd. destruct (batch_rows limit d) as (rows & -> & Hsub).
  rewrite <- list_fmap_compose.
  assert (Hids : row_id <$> rows ⊆+ row_id <$> sync_queue d) by by apply fmap_submseteq.
  apply submseteq_sublist_l in Hids as (ids & Hsubl & Hperm).
  eapply sublist_NoDup; [|exact Hsubl]. by rewrite Hperm.
Qed.

Lemma batch_item_row limit d item :
  NoDup (row_id <$> sync_queue d) ->
  item ∈ fst (getNextQueueItems limit d) ->
  rowToItem <$> rows_with_id (id item) (sync_queue d) = [item].
Proof.
  intros Hnd Hitem. destruct (batch_rows limit d) as (rows & Hrows & Hsub).
  rewrite Hrows in Hitem. apply list_elem_of_fmap in Hitem as (r & -> & Hr).
  cbn [id rowToItem]. rewrite rows_with_id_NoDup; [done | done |].
  by eapply elem_of_submseteq.
Qed.

(** *** The loop *)

Lemma pushLoop_after pre rest w w1 :
  runs_through pre w w1 -> pushLoop (pre ++ rest) w = pushLoop rest w1.
Proof.
  induction 1 as [|item pre' w wa wb Hitem _ IH]; [done|].
  cbn [app pushLoop]. by rewrite (bind_returns _ _ _ _ _ Hitem).
Qed.

Lemma pushItem_store item w b w' :
  pushItem item w = (Returns b, w') -> store w' = store w /\ remote w' = remote w.
Proof.
  destruct (pushItem_effect item w) as (b' & w'' & -> & Hst & Hrem & _).
  by intros [= _ <-].
Qed.

Lemma runs_through_store pre w w1 :
  runs_through pre w w1 -> store w1 = store w /\ remote w1 = remote w.
Proof.
  induction 1 as [|item pre' w wa wb Hitem _ [IHs IHr]]; [done|].
  apply pushItem_store in Hitem as [Hs Hr]. split; congruence.
Qed.

(** An iteration leaves the rows of every other id as they were. *)
Lemma pushItem_rows_other item w b w' i :
  pushItem item w = (Returns b, w') ->
  i ≠ id item ->
  rows_with_id i (sync_queue (db w')) = rows_with_id i (sync_queue (db w)).
Proof.
  destruct (pushItem_effect item w) as (b' & w'' & -> & _ & _ & Hcases).
  intros [= _ <-] Hne. unfold rows_with_id.
  destruct Hcases as [[_ ->] | [[_ ->] | (_ & msg & ->)]]; [|done|].
  - apply filter_discard_disjoint. intros r Hr%has_id_true.
    apply not_true_is_false. intros Hr'%has_id_true. congruence.
  - apply filter_fmap_fixed.
    + intros r. by destruct (has_id (id item) r).
    + intros r Hr%has_id_true. destruct (has_id (id item) r) eqn:E; [|done].
      apply has_id_true in E. congruence.
Qed.

(** An iteration that does not break has deleted the item's rows or marked
    them failed. *)
Lemma pushItem_rows_done item w w' :
  pushItem item w = (Returns false, w') ->
  rows_with_id (id item) (sync_queue (db w')) = []
  \/ exists msg, rows_with_id (id item) (sync_queue (db w'))
                 = fail_row msg <$> rows_with_id (id item) (sync_queue (db w)).
Proof.
  destruct (pushItem_effect item w) as (b' & w'' & -> & _ & _ & Hcases).
  intros [= -> <-].
  destruct Hcases as [[_ ->] | [[? _] | (_ & msg & ->)]]; [|done|].
  - left. apply rows_with_id_deleted.
  - right. exists msg. unfold rows_with_id.
    rewrite filter_fmap_stable
      by (intros r; destruct (has_id (id item) r) eqn:E; exact E).
    apply list_fmap_ext. intros _ r Hr%list_elem_of_lookup_2.
    apply list_elem_of_filter in Hr as [Hr _]. apply Is_true_true in Hr.
    by rewrite Hr.
Qed.

Lemma runs_through_rows_other pre w w1 i :
  runs_through pre w w1 ->
  i ∉ id <$> pre ->
  rows_with_id i (sync_queue (db w1)) = rows_with_id i (sync_queue (db w)).
Proof.
  induction 1 as [|item pre' w wa wb Hitem _ IH]; [done|].
  rewrite fmap_cons, not_elem_of_cons. intros [Hne Hrest].
  rewrite IH by done. by eapply pushItem_rows_other.
Qed.

Lemma runs_through_rows_done pre w w1 :
  runs_through pre w w1 ->
  NoDup (id <$> pre) ->
  forall item, item ∈ pre ->
    rows_with_id (id item) (sync_queue (db w1)) = []
    \/ exists msg, rows_with_id (id item) (sync_queue (db w1))
                   = fail_row msg <$> rows_with_id (id item) (sync_queue (db w)).
Proof.
  induction 1 as [|first pre' w wa wb Hfirst Hrest IH]; intros Hnd item Hitem.
  - by apply elem_of_nil in Hitem.
  - rewrite fmap_cons in Hnd. apply NoDup_cons in Hnd as [Hfresh Hnd].
    apply elem_of_cons in Hitem as [-> | Hitem].
    + rewrite (runs_through_rows_other _ _ _ _ Hrest Hfresh).
      by apply pushItem_rows_done.
    + destruct (IH Hnd item Hitem) as [Hgone | [msg Hfailed]]; [by left|].
      right. exists msg. rewrite Hfailed. f_equal.
      eapply pushItem_rows_other; [exact Hfirst|].
      intros Heq. apply Hfresh. rewrite <- Heq. by apply list_elem_of_fmap_2.
Qed.

(** *** The attempt for one item *)

(** A rate limit, in general: sleep if an attempt is left, go round. *)
Lemma retryLoop_rate_limited {A} (fn : M A) m base k lastError w e w' :
  fn w = (Throws e, w') ->
  isRateLimitError e = true ->
  retryLoop fn m base (S k) lastError w
  = retryLoop fn m base k e
      (if (m - S k <? m - 1)%nat
       then log_sleep (base * 2 ^ Z.of_nat (m - S k)) w' else w').
Proof.
  intros H He. cbn [retryLoop].
  rewrite (try_catch_throws _ _ _ _ _ H), He. cbn [negb].
  by destruct (m - S k <? m - 1)%nat.
Qed.

Lemma retryLoop_ext {A} (fn fn' : M A) m base rem :
  (forall w, fn w = fn' w) ->
  forall lastError w,
    retryLoop fn m base rem lastError w = retryLoop fn' m base rem lastError w.
Proof.
  intros Hfn. induction rem as [|k IH]; intros lastError w; [done|].
  destruct (fn' w) as [[a|e] w1] eqn:Hrun.
  - rewrite !(retryLoop_returns _ _ _ _ _ w a w1); congruence.
  - destruct (isRateLimitError e) eqn:He.
    + rewrite !(retryLoop_rate_limited _ _ _ _ _ w e w1); [apply IH | congruence..].
    + rewrite !(retryLoop_passes_through _ _ _ _ _ w e w1); congruence.
Qed.

(** Dropping the value of the wrapped call commutes with the wrapper. *)
Lemma retryLoop_discard {A} (fn : M A) m base rem :
  forall lastError w,
    retryLoop (fn ;;; ret tt) m base rem lastError w
    = (retryLoop fn m base rem lastError ;;; ret tt) w.
Proof.
  induction rem as [|k IH]; intros lastError w; [done|].
  destruct (fn w) as [[a|e] w1] eqn:Hrun.
  - rewrite (retryLoop_returns _ _ _ _ _ w tt w1) by by rewrite (bind_returns _ _ _ _ _ Hrun).
    symmetry. by rewrite (bind_returns _ _ _ a w1) by by apply retryLoop_returns.
  - assert (Hrun' : (fn ;;; ret tt) w = (Throws e, w1)) by by apply bind_throws.
    destruct (isRateLimitError e) eqn:He.
    + rewrite (retryLoop_rate_limited _ _ _ _ _ w e w1) by done.
      rewrite IH. unfold bind.
      by rewrite (retryLoop_rate_limited fn _ _ _ _ w e w1).
    + rewrite (retryLoop_passes_through _ _ _ _ _ w e w1) by done.
      symmetry. apply bind_throws. by apply retryLoop_passes_through.
Qed.

(** *** The time a run takes *)

Lemma total_app l1 l2 : total (l1 ++ l2) = total l1 + total l2.
Proof. unfold total. induction l1 as [|x l1 IH]; cbn; [done|]. rewrite IH. lia. Qed.

Lemma backoff_delays_S base k :
  backoff_delays base (S k) = backoff_delays base k ++ [base * 2 ^ Z.of_nat k].
Proof. unfold backoff_delays. by rewrite seq_S, fmap_app. Qed.

(** The geometric sum of the backoff: [base * (2^k - 1)]. *)
Lemma total_backoff base k : total (backoff_delays base k) = base * (2 ^ Z.of_nat k - 1).
Proof.
  induction k as [|k IH]; [cbn; lia|].
  rewrite backoff_delays_S, total_app, IH. cbn [total foldr].
  rewrite Nat2Z.inj_succ, Z.pow_succ_r by lia. lia.
Qed.

(** A backoff delay is a time that passes when the base delay is not
    negative. *)
Lemma backoff_delays_nonneg base k :
  0 <= base -> Z.max 0 <$> backoff_delays base k = backoff_delays base k.
Proof.
  intros Hbase. unfold backoff_delays. rewrite <- list_fmap_compose.
  apply list_fmap_ext. intros _ attempt _. cbn.
  pose proof (Z.pow_nonneg 2 (Z.of_nat attempt)). nia.
Qed.

(** The clock moves by what was slept, for every run of the wrapper around
    a function of which that is true. *)
Lemma retryLoop_time {A} (fn : M A) m base rem lastError :
  (forall w, clock (snd (fn w)) - total (Z.max 0 <$> slept (snd (fn w)))
             = clock w - total (Z.max 0 <$> slept w)) ->
  forall w, clock (snd (retryLoop fn m base rem lastError w))
            - total (Z.max 0 <$> slept (snd (retryLoop fn m base rem lastError w)))
            = clock w - total (Z.max 0 <$> slept w).
Proof.
  intros Hfn. revert lastError. induction rem as [|k IH]; intros lastError w; [done|].
  specialize (Hfn w). destruct (fn w) as [[a|e] w1] eqn:Hrun; cbn [snd] in Hfn.
  - by rewrite (retryLoop_returns _ _ _ _ _ w a w1).
  - destruct (isRateLimitError e) eqn:He.
    + rewrite (retryLoop_rate_limited _ _ _ _ _ w e w1) by done. rewrite IH.
      destruct (_ <? _)%nat; [|done].
      cbn [log_sleep clock slept]. rewrite fmap_app, total_app.
      cbn [fmap list_fmap total foldr]. lia.
    + by rewrite (retryLoop_passes_through _ _ _ _ _ w e w1).
Qed.

Lemma processQueueItem_request item req w :
  request_of item = Some req ->
  processQueueItem item w = (apiClient req ;;; ret tt) w.
Proof.
  intros Hreq. rewrite processQueueItem_run, Hreq.
  unfold bind, apiClient. by destruct (remote w _ _).
Qed.

(** The attempt for an item that has no request to send: nothing is called
    and nothing is retried. *)
Lemma attempt_without_request item w :
  request_of item = None ->
  retryWithBackoff (processQueueItem item) w
  = (if payload_unreadable item then Throws typeError else Returns tt, w).
Proof.
  intros Hreq. pose proof (processQueueItem_run item w) as Hrun. rewrite Hreq in Hrun.
  unfold retryWithBackoff, retryWithBackoffWith. destruct (payload_unreadable item).
  - by apply retryLoop_passes_through.
  - by apply retryLoop_returns.
Qed.

(** When the attempt for an item ends in a rate-limit error, the retry
    budget is spent: three identical calls were made, all of them
    rate-limited, with sleeps of 1000 and 2000 between them. *)
Lemma attempt_exhausted item w e w2 :
  retryWithBackoff (processQueueItem item) w = (Throws e, w2) ->
  isRateLimitError e = true ->
  exists req,
    request_of item = Some req
    /\ calls w2 = calls w ++ [req; req; req]
    /\ slept w2 = slept w ++ [1000; 2000]
    /\ (forall i, (i < 3)%nat -> rate_limited_at w req i).
Proof.
  intros Hrun He. destruct (request_of item) as [req|] eqn:Hreq.
  - exists req. split; [done|].
    unfold retryWithBackoff, retryWithBackoffWith in Hrun.
    rewrite (retryLoop_ext _ (apiClient req ;;; ret tt)) in Hrun
      by (intros w0; by apply processQueueItem_request).
    rewrite retryLoop_discard in Hrun.
    destruct (retryWithBackoff_run req 1000 w)
      as (n & w' & Hn & Hrun' & Hcalls & Hslept & Hbefore & Hlast & _).
    unfold retryWithBackoffWith in Hrun'.
    unfold bind in Hrun. rewrite Hrun' in Hrun.
    destruct (remote w (length (calls w) + (n - 1)) req) as [d|e'] eqn:Hout;
      cbn [settle] in Hrun; [done|].
    injection Hrun as -> ->.
    assert (n = 3%nat) as -> by (apply Hlast; by cbn).
    split_and!; [done | done |].
    intros i Hi. unfold rate_limited_at.
    destruct (decide (i = 2%nat)) as [->|]; [cbn [Nat.sub] in Hout; by rewrite Hout|].
    apply Hbefore. lia.
  - rewrite attempt_without_request in Hrun by done.
    destruct (payload_unreadable item); [|done]. by injection Hrun as <- _.
Qed.

Lemma pushChanges_run w :
  pushChanges w
  = (pushLoop (fst (getNextQueueItems 10 (db w))) ;;; updatePendingCount) w.
Proof.
  unfold pushChanges, bind at 1, liftDb, getNextQueueItems. cbn [fst].
  by rewrite with_db_same.
Qed.

(** The engine puts each error response of the service in one class: a
    conflict response is no rate limit, a rate-limit response no conflict;
    the same holds of every response with status 409 and of every response
    with status 429 that does not carry the conflict code. *)
Lemma service_errors_one_class message :
  (isVersionConflict (conflictResponse message) = true
   /\ isRateLimitError (conflictResponse message) = false)
  /\ (isRateLimitError (rateLimitResponse message) = true
      /\ isVersionConflict (rateLimitResponse message) = false)
  /\ (forall code, isVersionConflict (AxiosError (Some 409) code message) = true
                   /\ isRateLimitError (AxiosError (Some 409) code message) = false)
  /\ (forall code, code ≠ Some "VERSION_CONFLICT" ->
         isRateLimitError (AxiosError (Some 429) code message) = true
         /\ isVersionConflict (AxiosError (Some 429) code message) = false).
Proof.
  split_and!; try done. intros code Hcode. split; [done|].
  unfold isVersionConflict. by rewrite (bool_decide_eq_false_2 (code = _)).
Qed.

(** The attempt for an item that has a request to send is the wrapper's run
    around that one call. *)
Lemma attempt_run item req w :
  request_of item = Some req ->
  exists n w1,
    (1 <= n <= 3)%nat
    /\ retryWithBackoff (processQueueItem item) w
       = (match remote w (length (calls w) + (n - 1)) req with
          | Resolved _ => Returns tt
          | Rejected e => Throws e
          end, w1)
    /\ calls w1 = calls w ++ replicate n req
    /\ slept w1 = slept w ++ backoff_delays 1000 (n - 1)
    /\ clock w1 = clock w + 1000 * (2 ^ Z.of_nat (n - 1) - 1)
    /\ (forall i, (i < n - 1)%nat -> rate_limited_at w req i)
    /\ same_state w w1.
Proof.
  intros Hreq.
  destruct (retryWithBackoff_run req 1000 w)
    as (n & w1 & Hn & Hrun & Hcalls & Hslept & Hbefore & _ & Hsame).
  pose proof (retryLoop_time (apiClient req) 3 1000 3 (NonError None)
                (fun w0 => eq_refl) w) as Htime.
  unfold retryWithBackoffWith in Hrun. rewrite Hrun in Htime. cbn [snd] in Htime.
  rewrite Hslept, fmap_app, total_app, backoff_delays_nonneg, total_backoff in Htime
    by lia.
  exists n, w1. split_and!; try done; try lia.
  unfold retryWithBackoff, retryWithBackoffWith.
  rewrite (retryLoop_ext _ (apiClient req ;;; ret tt))
    by (intros w0; by apply processQueueItem_request).
  rewrite retryLoop_discard. unfold bind. rewrite Hrun.
  by destruct (remote w (length (calls w) + (n - 1)) req).
Qed.

(** C3 — conflict terminality.  Take a queue item whose push attempt, the
    item's call under the transport wrapper, ends in a version-conflict
    response (a conflict response is not a rate-limit response: the service
    sends it with status 409, [service_errors_one_class]).  Then:
    - the conflict response answered the last call of the attempt: the
      wrapper made [k+1] calls of the item's request, [k <= 2], the first
      [k] of them rate-limited and followed by their backoff, and none after
      the conflict;
    - the conflict resolver runs next and returns whether or not its fetch
      succeeded; for a job it makes exactly one GET for the job, and when
      that yields the server's job the job is stored as a server-origin
      write;
    - then the item's row is deleted from the queue, and only that row; the
      item's request is not sent again, and the loop does not break. *)
Theorem C3_conflict_terminal (item : SyncQueueItem) (w : World) (e : JsError) (w1 : World) :
  retryWithBackoff (processQueueItem item) w = (Throws e, w1) ->
  isVersionConflict e = true ->
  isRateLimitError e = false ->
  exists req k w2,
    let w' := after_db (removeFromQueue (id item)) w2 in
    request_of item = Some req
    /\ (k < 3)%nat
    /\ (forall i, (i < k)%nat -> rate_limited_at w req i)
    /\ remote w (length (calls w) + k) req = Rejected e
    /\ calls w1 = calls w ++ replicate (S k) req
    /\ slept w1 = slept w ++ backoff_delays 1000 k
    /\ clock w1 = clock w + 1000 * (2 ^ Z.of_nat k - 1)
    /\ handleConflictServerWins item w1 = (Returns tt, w2)
    /\ pushItem item w = (Returns false, w')
    /\ calls w' = calls w1 ++ (if decide (entityType item = job)
                               then [GetJob (entityId item)] else [])
    /\ slept w' = slept w1
    /\ sync_queue (db w') = filter (fun r => negb (has_id (id item) r)) (sync_queue (db w))
    /\ rows_with_id (id item) (sync_queue (db w')) = []
    /\ (forall serverJob,
          entityType item = job ->
          remote w (length (calls w1)) (GetJob (entityId item))
            = Resolved (JobData serverJob) ->
          jobs (db w') = upsert_job serverJob true (clock w1 / 1000) (jobs (db w))).
Proof.
  intros Hattempt Hconflict Hrate.
  destruct (request_of item) as [req|] eqn:Hreq.
  2:{ rewrite attempt_without_request in Hattempt by done.
      destruct (payload_unreadable item); [|done]. by injection Hattempt as <- _. }
  destruct (attempt_run item req w Hreq)
    as (n & w1' & Hn & Hrun & Hcalls & Hslept & Hclock & Hbefore & Hdb & Hst & Hrem).
  rewrite Hattempt in Hrun.
  destruct (remote w (length (calls w) + (n - 1)) req) as [d|e'] eqn:Hout; [done|].
  injection Hrun as <- <-.
  destruct (handleConflictServerWins_run item w1)
    as (w2 & Hres & Hq & _ & _ & Hslept2 & Hcalls2 & Hjob).
  exists req, (n - 1)%nat, w2. cbn zeta.
  replace (S (n - 1)) with n by lia.
  assert (Hpush : pushItem item w
                  = (Returns false, after_db (removeFromQueue (id item)) w2)).
  { unfold pushItem.
    erewrite try_catch_throws; [|by erewrite bind_throws].
    rewrite Hconflict. by rewrite (bind_returns _ _ _ _ _ Hres). }
  split_and!; try done.
  - lia.
  - cbn. by rewrite Hq, Hdb.
  - cbn. rewrite Hq, Hdb. apply rows_with_id_deleted.
  - intros serverJob Hj Hget.
    cbn [after_db with_db db removeFromQueue snd set_queue jobs].
    rewrite (Hjob serverJob Hj); [by rewrite Hdb | by rewrite Hrem].
Qed.

(** A conflict after a rate limit: job-1 is dirty at serverVersion 2; its
    push is first answered 429, then, after the backoff, 409; the server's
    job is at version 4.  Two PATCH calls, one sleep, one GET; the item is
    gone and the server's job is stored. *)
Lemma C3_conflict_terminal_witness :
  let row := mkRow 1 job "job-1" update
               (JObj [("status", JStr "completed"); ("version", JNum 2)])
               None 0 None 0 100 in
  let localJob := mkLocalJob (mkJob "job-1" 2 (JObj [("status", JStr "completed")]))
                             (Some 2) 2 1 (Some 50) 10 in
  let serverJob := mkJob "job-1" 4 (JObj [("status", JStr "cancelled")]) in
  let tooMany := AxiosError (Some 429) (Some "RATE_LIMIT_EXCEEDED") "Too Many Requests" in
  let conflict := AxiosError (Some 409) (Some "VERSION_CONFLICT") "Version conflict" in
  let w := mkWorld (mkDb [row] 1 {[ "job-1" := localJob ]}) initialState 60000 [] []
             (fun n _ => match n with
                         | 0%nat => Rejected tooMany
                         | 1%nat => Rejected conflict
                         | _ => Resolved (JobData serverJob)
                         end) in
  let patch := PatchJob "job-1" (row_payload row) in
  let w' := snd (pushItem (rowToItem row) w) in
  calls w' = [patch; patch; GetJob "job-1"]
  /\ slept w' = [1000]
  /\ sync_queue (db w') = []
  /\ jobs (db w') !! "job-1" = Some (mkLocalJob serverJob (Some 4) 2 0 (Some 61) 10).
Proof.
  intros row localJob serverJob tooMany conflict w patch w'.
  destruct (C3_conflict_terminal (rowToItem row) w conflict
              (snd (retryWithBackoff (processQueueItem (rowToItem row)) w)))
    as (req & k & w2 & Hreq & _ & _ & _ & Hcalls1 & Hslept1 & Hclock & _ & Hpush
        & Hcalls & Hslept & Hq & _ & Hjobs); [by vm_compute | done | done |].
  injection Hreq as <-.
  assert (k = 1%nat) as ->.
  { apply (f_equal length) in Hcalls1. rewrite length_app, length_replicate in Hcalls1.
    vm_compute in Hcalls1. lia. }
  subst w'. rewrite Hpush. cbn [snd]. split_and!.
  - rewrite Hcalls, Hcalls1. by vm_compute.
  - rewrite Hslept, Hslept1. by vm_compute.
  - rewrite Hq. by vm_compute.
  - rewrite (Hjobs serverJob); [|done|by rewrite Hcalls1].
    rewrite Hclock. by vm_compute.
Defined.

(** C4 — the rate-limit pause.  Let the batch of a push phase be
    [pre ++ item :: post], the loop have gone through [pre] without a break,
    and the attempt for [item] end in a rate-limit error (a rate-limit
    response is not a conflict response: the service sends it with status
    429 and code RATE_LIMIT_EXCEEDED, [service_errors_one_class]).  Then:
    - the retry budget was spent on the item: three calls, sleeps of 1000
      and 2000 ms;
    - the loop stops there: no further call is made, the database is the one
      the earlier items left, and [pushChanges] returns normally with the
      store's error untouched and the pending count refreshed;
    - [item] and every item of [post] still have their row, exactly as the
      batch read it (same retryCount, same lastError);
    - every item of [pre] has been removed (success or resolved conflict) or
      marked failed (retryCount + 1 and the error message). *)
Theorem C4_rate_limit_pause (w : World) (pre : list SyncQueueItem) (item : SyncQueueItem)
    (post : list SyncQueueItem) (w1 : World) (e : JsError) (w2 : World) :
  NoDup (row_id <$> sync_queue (db w)) ->
  fst (getNextQueueItems 10 (db w)) = pre ++ item :: post ->
  runs_through pre w w1 ->
  retryWithBackoff (processQueueItem item) w1 = (Throws e, w2) ->
  isRateLimitError e = true ->
  isVersionConflict e = false ->
  exists w',
    pushChanges w = (Returns tt, w')
    /\ (exists req, request_of item = Some req
                    /\ calls w2 = calls w1 ++ [req; req; req]
                    /\ slept w2 = slept w1 ++ [1000; 2000])
    /\ calls w' = calls w2
    /\ db w' = db w1
    /\ (forall later, later ∈ item :: post ->
          rowToItem <$> rows_with_id (id later) (sync_queue (db w')) = [later])
    /\ (forall earlier, earlier ∈ pre ->
          rows_with_id (id earlier) (sync_queue (db w')) = []
          \/ exists msg,
               rows_with_id (id earlier) (sync_queue (db w'))
               = fail_row msg <$> rows_with_id (id earlier) (sync_queue (db w)))
    /\ error (store w') = error (store w)
    /\ pendingCount (store w') = Z.of_nat (length (sync_queue (db w'))).
Proof.
  intros Hnd Hbatch Hpre Hattempt Hrate Hconflict.
  pose proof (keeps_state_attempt item w1) as (Hdb & Hst & Hrem).
  rewrite Hattempt in Hdb, Hst, Hrem. cbn [snd] in Hdb, Hst, Hrem.
  destruct (runs_through_store _ _ _ Hpre) as [Hst1 _].
  assert (Hitem : pushItem item w1 = (Returns true, w2)).
  { unfold pushItem.
    erewrite try_catch_throws; [|by erewrite bind_throws].
    by rewrite Hconflict, Hrate. }
  pose proof (batch_NoDup 10 (db w) Hnd) as Hids.
  rewrite Hbatch, fmap_app in Hids. apply NoDup_app in Hids as (Hpre_ids & Hsep & _).
  eexists. split.
  { rewrite pushChanges_run, Hbatch. unfold bind at 1.
    rewrite (pushLoop_after _ _ _ _ Hpre). cbn [pushLoop].
    rewrite (bind_returns _ _ _ _ _ Hitem). cbn [ret]. reflexivity. }
  cbn [with_store with_db db store calls pendingCount error]. rewrite Hdb.
  split_and!; try done.
  - destruct (attempt_exhausted _ _ _ _ Hattempt Hrate) as (req & ? & ? & ? & _).
    by exists req.
  - intros later Hlater.
    rewrite (runs_through_rows_other _ _ _ _ Hpre).
    + apply (batch_item_row 10); [done|].
      rewrite Hbatch. apply elem_of_app. by right.
    + intros Hin. apply (Hsep _ Hin). by apply list_elem_of_fmap_2.
  - by apply runs_through_rows_done.
  - congruence.
Qed.

(** A batch of three: the first item is pushed, the second is rate-limited
    three times, the third is never tried. *)
Lemma C4_rate_limit_pause_witness :
  let row1 := mkRow 1 job "job-1" update (JObj [("version", JNum 2)]) None 0 None 10 100 in
  let row2 := mkRow 2 job "job-2" update (JObj [("version", JNum 5)]) None 0 None 5 101 in
  let row3 := mkRow 3 job "job-3" update (JObj [("version", JNum 1)]) None 0 None 0 102 in
  let tooMany := AxiosError (Some 429) (Some "RATE_LIMIT_EXCEEDED") "Too Many Requests" in
  let w := mkWorld (mkDb [row1; row2; row3] 3 ∅) initialState 0 [] []
             (fun n _ => match n with
                         | O => Resolved NoData
                         | _ => Rejected tooMany
                         end) in
  fst (pushChanges w) = Returns tt
  /\ sync_queue (db (snd (pushChanges w))) = [row2; row3]
  /\ length (calls (snd (pushChanges w))) = 4%nat.
Proof.
  intros row1 row2 row3 tooMany w.
  set (w1 := snd (pushItem (rowToItem row1) w)).
  set (w2 := snd (retryWithBackoff (processQueueItem (rowToItem row2)) w1)).
  destruct (C4_rate_limit_pause w [rowToItem row1] (rowToItem row2) [rowToItem row3]
              w1 tooMany w2)
    as (w' & -> & (req & _ & Hcalls & _) & Hcalls' & Hdb & _).
  - apply (bool_decide_unpack _). by vm_compute.
  - by vm_compute.
  - apply (runs_cons _ _ _ w1 w1); [by vm_compute | constructor].
  - by vm_compute.
  - done.
  - done.
  - cbn [fst snd]. rewrite Hdb, Hcalls', Hcalls. split_and!; by vm_compute.
Defined.

(** ** The pull phase and the sync cursor *)

Lemma deleteJobs_run ids w :
  deleteJobs ids w
  = (Returns tt, with_db (foldl (fun d' jobId => snd (deleteJob jobId d')) (db w) ids) w).
Proof.
  revert w. induction ids as [|jobId ids IH]; intros w.
  - cbn. by rewrite with_db_same.
  - cbn [deleteJobs foldl]. unfold bind, liftDb. cbn. by rewrite IH.
Qed.

(** The pull phase on its own treats the cursor as the claim has it: it
    either leaves cursor and database alone (the pull failed or was
    rate-limited), or it has received a pull response, applied all of it, and
    then set the cursor to that response's [syncedAt]. *)
Lemma pullChanges_cursor w :
  exists r w',
    pullChanges w = (r, w')
    /\ ((lastSyncedAt (store w') = lastSyncedAt (store w) /\ db w' = db w)
        \/ (exists p n now,
              remote w (length (calls w) + n)
                     (PostSyncPull (default 0 (lastSyncedAt (store w))) ["jobs"; "customers"])
              = Resolved (PullResponse p)
              /\ r = Returns tt
              /\ lastSyncedAt (store w') = Some (syncedAt p)
              /\ db w' = apply_pull p now (db w))).
Proof.
  unfold pullChanges, bind at 1, get. unfold try_catch, bind at 1.
  set (req := PostSyncPull _ _).
  unfold retryWithBackoff.
  destruct (retryWithBackoff_run req 1000 w)
    as (n & w1 & _ & -> & _ & _ & _ & _ & (Hdb & Hst & _)).
  destruct (remote w (length (calls w) + (n - 1)) req) as [[| |p]|e] eqn:Hout;
    cbn [settle].
  - eexists _, _. split; [reflexivity|]. left. by rewrite Hst, Hdb.
  - eexists _, _. split; [reflexivity|]. left. by rewrite Hst, Hdb.
  - destruct (updated p) as [js|] eqn:Hup; destruct (deleted p) as [ids|] eqn:Hdel;
      (eexists _, _; split;
       [ unfold bind, nowSeconds, dateNow, liftDb, ret, setLastSyncedAt, set;
         rewrite ?Hup, ?Hdel; cbn; rewrite ?deleteJobs_run; reflexivity
       | right; exists p, (n - 1)%nat, (clock w1 / 1000); split; [done|];
         unfold apply_pull; rewrite Hup, Hdel; cbn; rewrite ?Hdb; done ]).
  - destruct (isRateLimitError e);
      (eexists _, _; split; [reflexivity|]; left; by rewrite Hst, Hdb).
Qed.

(** A cycle that ends without an error leaves the device's clock in the
    cursor, whatever the pull phase did. *)
Lemma startSync_cursor_is_device_clock w :
  networkStatus (store w) = online ->
  isSyncing (store w) = false ->
  let w' := snd (startSync w) in
  error (store w') = None ->
  lastSyncedAt (store w') = Some (clock w').
Proof.
  intros Hon Hsync. cbn zeta.
  assert (Hstart : exists w0,
            startSync w
            = try_catch
                (pullChanges ;;; pushChanges ;;;
                 now <- dateNow ;;
                 set (fun s => mkState (networkStatus s) false (Some now) (pendingCount s)
                                       (conflicts s) (error s)) ;;;
                 updatePendingCount)
                (fun e =>
                   set (fun s => mkState (networkStatus s) false (lastSyncedAt s)
                                         (pendingCount s) (conflicts s)
                                         (Some (messageOr "Sync failed" e)))) w0).
  { eexists. unfold startSync, bind at 1, get.
    rewrite Hon, Hsync, bool_decide_eq_true_2 by done. cbn [negb orb].
    unfold bind at 1, set. reflexivity. }
  destruct Hstart as [w0 ->].
  destruct (pullChanges w0) as [[[]|e] w1] eqn:Hpull.
  - destruct (pushChanges w1) as [[[]|e] w2] eqn:Hpush.
    + erewrite try_catch_returns;
        [|rewrite (bind_returns _ _ _ _ _ Hpull), (bind_returns _ _ _ _ _ Hpush);
          reflexivity].
      done.
    + erewrite try_catch_throws;
        [|rewrite (bind_returns _ _ _ _ _ Hpull); by apply bind_throws].
      done.
  - erewrite try_catch_throws; [|by apply bind_throws]. done.
Qed.

(** C5 — the sync cursor, at two cycles where [startSync] breaks it.  The
    pull phase sets [lastSyncedAt] to the server's [syncedAt] after applying
    the response ([pullChanges_cursor]), but the end of the cycle overwrites
    it with the device's clock ([startSync_cursor_is_device_clock]).
    (1) The three pull attempts of a cycle are rate-limited: no response is
        received, nothing is applied, and the cycle still moves the cursor
        from 1000 to the device's clock, 8000.
    (2) The pull of a cycle succeeds and the server reports syncedAt = 9000:
        the pull phase sets the cursor to 9000, and the end of the cycle puts
        it back to the device's clock, 5000. *)
Theorem C5_startSync_overwrites_cursor :
  let tooMany := AxiosError (Some 429) (Some "RATE_LIMIT_EXCEEDED") "Too Many Requests" in
  let idle := mkState online false (Some 1000) 0 [] None in
  let serverJob := mkJob "job-1" 4 (JObj [("status", JStr "pending")]) in
  let response := mkPull (Some [serverJob]) (Some []) 9000 in
  let pull := PostSyncPull 1000 ["jobs"; "customers"] in
  let limited := mkWorld emptyDb idle 5000 [] [] (fun _ _ => Rejected tooMany) in
  let pulled := mkWorld emptyDb idle 5000 [] []
                        (fun _ _ => Resolved (PullResponse response)) in
  (fst (startSync limited) = Returns tt
   /\ calls (snd (startSync limited)) = [pull; pull; pull]
   /\ db (snd (startSync limited)) = emptyDb
   /\ error (store (snd (startSync limited))) = None
   /\ lastSyncedAt (store (snd (startSync limited))) = Some 8000)
  /\ (lastSyncedAt (store (snd (pullChanges pulled))) = Some 9000
      /\ db (snd (startSync pulled)) = apply_pull response 5 emptyDb
      /\ error (store (snd (startSync pulled))) = None
      /\ lastSyncedAt (store (snd (startSync pulled))) = Some 5000).
Proof. intros. split; split_and!; by vm_compute. Qed.

(** ** Manual conflict resolution *)

(** "Keep local" enqueues the conflict's local data as it is, as an update
    of priority 10, and then runs a push phase. *)
Lemma resolveConflict_keep_local w conflictId c :
  List.find (fun c => bool_decide (conflict_id c = conflictId)) (conflicts (store w))
  = Some c ->
  let w1 := after_db (addToQueue (conflict_entityType c) (conflict_entityId c) update
                                 (localData c) None 10 (clock w / 1000)) w in
  (exists i, rows_of (conflict_entityType c) (conflict_entityId c) (sync_queue (db w1))
             = [mkRow i (conflict_entityType c) (conflict_entityId c) update
                      (localData c) None 0 None 10 (clock w / 1000)])
  /\ resolveConflict conflictId keep_local w
     = (set (fun s' => mkState (networkStatus s') (isSyncing s') (lastSyncedAt s')
                               (pendingCount s')
                               (List.filter
                                  (fun c => negb (bool_decide (conflict_id c = conflictId)))
                                  (conflicts (store w)))
                               (error s')) ;;;
        pushChanges) w1.
Proof.
  intros Hfind. cbn zeta. split.
  - eexists. apply addToQueue_rows_of.
  - unfold resolveConflict, bind at 1, get. rewrite Hfind.
    unfold bind at 1 2, nowSeconds, dateNow, liftDb, ret. unfold bind at 1.
    unfold after_db, bind at 1, addToQueue, addToQueue_delete, addToQueue_insert. by cbn [snd].
Qed.

(** C6 — "keep local", at a conflict where the code misses it.  job-1
    conflicted when a local change expecting server version 2 met a server
    at version 4.  Resolving with "keep local":
    (1) [online]: the push that follows sends the local data as it was, still
        expecting version 2; the server rejects it with 409 again, the
        server-wins resolver fetches version 4 and overwrites the local job:
        the change the user chose to keep is gone, and so is the queue item.
    (2) [offline]: the same with the network down shows the row that was
        enqueued: priority 10, payload equal to the conflict's local data,
        version 2 included. *)
Theorem C6_keep_local_requeues_stale_version :
  let kept := JObj [("status", JStr "completed"); ("version", JNum 2)] in
  let serverJob := mkJob "job-1" 4 (JObj [("status", JStr "cancelled")]) in
  let c := mkConflict 1 job "job-1" kept serverJob false in
  let localJob := mkLocalJob (mkJob "job-1" 2 (JObj [("status", JStr "completed")]))
                             (Some 2) 2 1 (Some 50) 10 in
  let d := mkDb [] 0 {[ "job-1" := localJob ]} in
  let st := mkState online false (Some 1000) 0 [c] None in
  let conflict409 := AxiosError (Some 409) (Some "VERSION_CONFLICT") "Version conflict" in
  let server (n : nat) (req : Request) :=
    match req with
    | PatchJob _ body =>
        match jget "version" body with
        | Some (JNum 4) => Resolved NoData
        | _ => Rejected conflict409
        end
    | GetJob _ => Resolved (JobData serverJob)
    | _ => Resolved NoData
    end in
  let online_ := mkWorld d st 5000 [] [] server in
  let offline_ := mkWorld d st 5000 [] [] (fun _ _ => Rejected (OtherError "Network Error")) in
  (calls (snd (resolveConflict 1 keep_local online_)) = [PatchJob "job-1" kept; GetJob "job-1"]
   /\ jget "version" kept = Some (JNum 2)
   /\ sync_queue (db (snd (resolveConflict 1 keep_local online_))) = []
   /\ jobs (db (snd (resolveConflict 1 keep_local online_))) !! "job-1"
      = Some (mkLocalJob serverJob (Some 4) 2 0 (Some 5) 10))
  /\ sync_queue (db (snd (resolveConflict 1 keep_local offline_)))
     = [mkRow 1 job "job-1" update kept None 1 (Some "Network Error") 10 5].
Proof. intros. split; [split_and!|]; by vm_compute. Qed.

(** ** Reachable queues *)

Lemma max_rowid_bound (q : list SyncQueueRow) r : r ∈ q -> row_id r <= max_rowid q.
Proof.
  induction q as [|r' q IH]; intros Hr.
  - by apply elem_of_nil in Hr.
  - change (max_rowid (r' :: q)) with (Z.max (row_id r') (max_rowid q)).
    apply elem_of_cons in Hr as [-> | Hr]; [lia|].
    specialize (IH Hr). lia.
Qed.

Lemma fmap_rewrite_ids (h : SyncQueueRow -> SyncQueueRow) (q : list SyncQueueRow) :
  (forall r, row_id (h r) = row_id r) -> row_id <$> (h <$> q) = row_id <$> q.
Proof.
  intros Hh. rewrite <- list_fmap_compose. apply list_fmap_ext. intros _ r _. apply Hh.
Qed.

Lemma discard_ids_NoDup (g : SyncQueueRow -> bool) (q : list SyncQueueRow) :
  NoDup (row_id <$> q) -> NoDup (row_id <$> filter (fun r => negb (g r)) q).
Proof.
  intros Hnd. eapply sublist_NoDup; [exact Hnd|].
  apply fmap_sublist, sublist_filter.
Qed.

(** The primary key of [sync_queue]: every queue operation keeps the row ids
    distinct, since AUTOINCREMENT hands out an id above all those present. *)
Lemma applyOp_ids_NoDup d op :
  NoDup (row_id <$> sync_queue d) -> NoDup (row_id <$> sync_queue (applyOp d op)).
Proof.
  intros Hnd.
  destruct op as [et eid act pl fp prio now|i|i err|i|i|];
    cbn [applyOp snd addToQueue addToQueue_delete addToQueue_insert markItemSuccess markItemFailed removeFromQueue
         retryFailedItem clearQueue sync_queue set_queue].
  - rewrite fmap_app. apply NoDup_app. split_and!.
    + by apply discard_ids_NoDup.
    + intros i Hi Hnew. cbn in Hnew. apply list_elem_of_singleton in Hnew.
      apply list_elem_of_fmap in Hi as (r & -> & Hr).
      apply max_rowid_bound in Hr. unfold next_rowid in Hnew.
      cbn [sync_queue set_queue] in Hnew. lia.
    + cbn. apply NoDup_singleton.
  - by apply discard_ids_NoDup.
  - rewrite fmap_rewrite_ids; [done|]. intros r. by destruct (has_id i r).
  - by apply discard_ids_NoDup.
  - rewrite fmap_rewrite_ids; [done|]. intros r. by destruct (has_id i r).
  - cbn. apply NoDup_nil_2.
Qed.

(** X3 — row ids stay distinct.  In every state of the queue reached from
    the empty table by [addToQueue], [markItemSuccess], [markItemFailed],
    [removeFromQueue], [retryFailedItem] and [clearQueue], in any order and
    with any arguments, no two rows have the same id. *)
Lemma history_ids_NoDup ops :
  NoDup (row_id <$> sync_queue (foldl applyOp emptyDb ops)).
Proof.
  assert (H : forall d, NoDup (row_id <$> sync_queue d) ->
                        NoDup (row_id <$> sync_queue (foldl applyOp d ops))).
  { induction ops as [|op ops IH]; intros d Hd; [done|].
    cbn. by apply IH, applyOp_ids_NoDup. }
  apply H. cbn. apply NoDup_nil_2.
Qed.

(** * Further properties of the three modules *)

(** ** The mutation queue, beyond enqueue and nextBatch *)

Lemma filter_bool_all (f : SyncQueueRow -> bool) (q : list SyncQueueRow) :
  (forall r, r ∈ q -> f r = true) -> filter (fun x => f x) q = q.
Proof.
  induction q as [|r q IH]; intros H; [done|].
  rewrite filter_bool_cons, (H r) by apply list_elem_of_here.
  f_equal. apply IH. intros r' Hr'. apply H. by apply list_elem_of_further.
Qed.

Lemma fmap_fixed (h : SyncQueueRow -> SyncQueueRow) (q : list SyncQueueRow) :
  (forall r, r ∈ q -> h r = r) -> h <$> q = q.
Proof.
  induction q as [|r q IH]; intros H; [done|].
  rewrite fmap_cons, (H r) by apply list_elem_of_here.
  f_equal. apply IH. intros r' Hr'. apply H. by apply list_elem_of_further.
Qed.

Lemma getQueueItem_None i d :
  fst (getQueueItem i d) = None <-> forall r, r ∈ sync_queue d -> has_id i r = false.
Proof.
  unfold getQueueItem. cbn [fst]. split.
  - intros H r Hr. apply not_true_is_false. intros Hid.
    destruct (filter (fun r => has_id i r) (sync_queue d)) as [|r' q'] eqn:E; [|done].
    assert (r ∈ filter (fun r => has_id i r) (sync_queue d)) as Hin.
    { apply list_elem_of_filter. split; [by apply Is_true_true|done]. }
    rewrite E in Hin. by apply elem_of_nil in Hin.
  - intros H. by rewrite filter_bool_none.
Qed.

Lemma set_queue_same d : set_queue (sync_queue d) d = d.
Proof. by destruct d. Qed.

(** X1 — insert, then look up.  The id [addToQueue] returns names the row
    it inserted: [getQueueItem] on that id gives back the entity, action,
    payload, file path and priority that were enqueued, with retryCount 0, no
    lastError and the enqueue time, whatever the table held before. *)
Theorem addToQueue_then_getQueueItem et eid act pl fp prio now d :
  let '(i, d') := addToQueue et eid act pl fp prio now d in
  fst (getQueueItem i d') = Some (mkItem i et eid act pl fp 0 None prio now).
Proof.
  unfold addToQueue, addToQueue_delete, addToQueue_insert, getQueueItem. cbn [fst snd sync_queue set_queue].
  rewrite filter_bool_app, filter_bool_none.
  - rewrite filter_bool_cons. cbn.
    unfold has_id at 1. cbn. by rewrite bool_decide_eq_true_2.
  - intros r Hr. apply not_true_is_false. intros Hid%has_id_true.
    apply max_rowid_bound in Hr. unfold next_rowid in Hid.
    cbn [sync_queue set_queue sync_queue_seq] in Hid. lia.
Qed.

(** What every history of the queue keeps true of the AUTOINCREMENT
    counter: it is not negative and no row has an id above it. *)
Lemma applyOp_seq d op :
  (0 <= sync_queue_seq d /\ forall r, r ∈ sync_queue d -> row_id r <= sync_queue_seq d) ->
  sync_queue_seq d <= sync_queue_seq (applyOp d op)
  /\ 0 <= sync_queue_seq (applyOp d op)
  /\ forall r, r ∈ sync_queue (applyOp d op) -> row_id r <= sync_queue_seq (applyOp d op).
Proof.
  intros [Hseq Hrows].
  destruct op as [et eid act pl fp prio now|i|i err|i|i|];
    cbn [applyOp snd addToQueue addToQueue_delete addToQueue_insert markItemSuccess markItemFailed removeFromQueue
         retryFailedItem clearQueue sync_queue sync_queue_seq set_queue].
  - unfold next_rowid. cbn [sync_queue sync_queue_seq set_queue].
    split_and!; [lia | lia |]. intros r [Hr | Hr]%elem_of_app.
    + apply max_rowid_bound in Hr. lia.
    + apply list_elem_of_singleton in Hr as ->. cbn. lia.
  - split_and!; [lia | lia |]. intros r [_ Hr]%list_elem_of_filter. auto.
  - split_and!; [lia | lia |]. intros r (r' & -> & Hr)%list_elem_of_fmap.
    specialize (Hrows r' Hr). by destruct (has_id i r').
  - split_and!; [lia | lia |]. intros r [_ Hr]%list_elem_of_filter. auto.
  - split_and!; [lia | lia |]. intros r (r' & -> & Hr)%list_elem_of_fmap.
    specialize (Hrows r' Hr). by destruct (has_id i r').
  - split_and!; [lia | lia |]. intros r Hr. by apply elem_of_nil in Hr.
Qed.

Lemma history_seq ops d :
  (0 <= sync_queue_seq d /\ forall r, r ∈ sync_queue d -> row_id r <= sync_queue_seq d) ->
  sync_queue_seq d <= sync_queue_seq (foldl applyOp d ops)
  /\ 0 <= sync_queue_seq (foldl applyOp d ops)
  /\ forall r, r ∈ sync_queue (foldl applyOp d ops) ->
               row_id r <= sync_queue_seq (foldl applyOp d ops).
Proof.
  revert d. induction ops as [|op ops IH]; intros d Hd.
  - cbn. destruct Hd. split_and!; [lia | done | done].
  - cbn [foldl]. destruct (applyOp_seq d op Hd) as (Hle & Hseq & Hrows).
    destruct (IH (applyOp d op) (conj Hseq Hrows)) as (Hle' & ? & ?).
    split_and!; [lia | done | done].
Qed.

Lemma addToQueue_id_under_seq et eid act pl fp prio now d :
  (0 <= sync_queue_seq d /\ forall r, r ∈ sync_queue d -> row_id r <= sync_queue_seq d) ->
  fst (addToQueue et eid act pl fp prio now d) = sync_queue_seq d + 1
  /\ sync_queue_seq (snd (addToQueue et eid act pl fp prio now d)) = sync_queue_seq d + 1.
Proof.
  intros [Hseq Hrows]. unfold addToQueue, addToQueue_delete, addToQueue_insert, next_rowid.
  cbn [fst snd sync_queue sync_queue_seq set_queue].
  assert (max_rowid (filter (fun r => negb (same_entity et eid r)) (sync_queue d))
          <= sync_queue_seq d); [|lia].
  induction (sync_queue d) as [|r q IH]; [done|].
  rewrite filter_bool_cons.
  assert (Hq : forall r', r' ∈ q -> row_id r' <= sync_queue_seq d).
  { intros r' Hr'. apply Hrows. by apply list_elem_of_further. }
  destruct (negb (same_entity et eid r)); [|by apply IH].
  change (max_rowid (r :: ?l)) with (Z.max (row_id r) (max_rowid l)).
  specialize (IH Hq). specialize (Hrows r (list_elem_of_here _ _)). lia.
Qed.

(** X2 — ids are never handed out twice.  Along every history of the queue
    from the empty table, an enqueue returns an id strictly greater than the
    id any earlier enqueue returned, whatever was marked success, removed or
    cleared in between. *)
Theorem addToQueue_ids_increase (before between : list QueueOp)
    et1 eid1 act1 pl1 fp1 prio1 now1 et2 eid2 act2 pl2 fp2 prio2 now2 :
  let d1 := foldl applyOp emptyDb before in
  let '(i1, d1') := addToQueue et1 eid1 act1 pl1 fp1 prio1 now1 d1 in
  let d2 := foldl applyOp d1' between in
  let '(i2, _) := addToQueue et2 eid2 act2 pl2 fp2 prio2 now2 d2 in
  0 < i1 /\ i1 < i2.
Proof.
  cbn zeta.
  destruct (addToQueue et1 eid1 act1 pl1 fp1 prio1 now1 (foldl applyOp emptyDb before))
    as [i1 d1'] eqn:E1.
  destruct (addToQueue et2 eid2 act2 pl2 fp2 prio2 now2 (foldl applyOp d1' between))
    as [i2 d2'] eqn:E2.
  assert (Hempty : 0 <= sync_queue_seq emptyDb
                   /\ forall r, r ∈ sync_queue emptyDb -> row_id r <= sync_queue_seq emptyDb).
  { split; [done|]. intros r Hr. by apply elem_of_nil in Hr. }
  destruct (history_seq before emptyDb Hempty) as (_ & Hseq1 & Hrows1).
  destruct (addToQueue_id_under_seq et1 eid1 act1 pl1 fp1 prio1 now1 _ (conj Hseq1 Hrows1))
    as [Hi1 Hs1].
  rewrite E1 in Hi1, Hs1. cbn [fst snd] in Hi1, Hs1.
  pose proof (applyOp_seq _ (OpAdd et1 eid1 act1 pl1 fp1 prio1 now1) (conj Hseq1 Hrows1))
    as (_ & Hseq1' & Hrows1').
  cbn [applyOp] in Hseq1', Hrows1'. rewrite E1 in Hseq1', Hrows1'. cbn [snd] in *.
  destruct (history_seq between d1' (conj Hseq1' Hrows1')) as (Hle & Hseq2 & Hrows2).
  destruct (addToQueue_id_under_seq et2 eid2 act2 pl2 fp2 prio2 now2 _ (conj Hseq2 Hrows2))
    as [Hi2 _].
  rewrite E2 in Hi2. cbn [fst] in Hi2. lia.
Qed.

(** X4 — an id that is not in the queue.  When [getQueueItem] finds no row
    for an id, marking that id success or failed, removing it, or resetting
    it for retry changes nothing in the database. *)
Theorem missing_id_is_noop i err d :
  fst (getQueueItem i d) = None ->
  snd (markItemSuccess i d) = d
  /\ snd (markItemFailed i err d) = d
  /\ snd (removeFromQueue i d) = d
  /\ snd (retryFailedItem i d) = d.
Proof.
  intros Hnull. pose proof (proj1 (getQueueItem_None i d) Hnull) as Hnone.
  assert (Hkeep : filter (fun r => negb (has_id i r)) (sync_queue d) = sync_queue d).
  { apply filter_bool_all. intros r Hr. by rewrite (Hnone r Hr). }
  cbn [snd markItemSuccess markItemFailed removeFromQueue retryFailedItem].
  rewrite Hkeep, !fmap_fixed, set_queue_same; [done|..];
    intros r Hr; by rewrite (Hnone r Hr).
Qed.

Lemma missing_id_is_noop_witness :
  let d := mkDb [mkRow 1 job "job-1" update JNull None 0 None 0 100] 1 ∅ in
  fst (getQueueItem 7 d) = None /\ snd (markItemFailed 7 "Network Error" d) = d.
Proof.
  intros d. split; [done|].
  by destruct (missing_id_is_noop 7 "Network Error" d) as (_ & H & _).
Defined.

Lemma head_fmap_filter (f : SyncQueueRow -> bool) (h : SyncQueueRow -> SyncQueueRow)
    (q : list SyncQueueRow) :
  (forall r, f (h r) = f r) ->
  head (filter (fun x => f x) (h <$> q)) = h <$> head (filter (fun x => f x) q).
Proof.
  intros Hf. rewrite filter_fmap_stable by done.
  by destruct (filter (fun x => f x) q).
Qed.

(** X5 — a failed attempt on the record.  After [markItemFailed id error],
    looking the id up gives the item it gave before with retryCount one
    higher and lastError replaced by the error; every other id looks up as
    before, and the number of queued items and the job store are unchanged. *)
Theorem markItemFailed_effect i err d :
  let d' := snd (markItemFailed i err d) in
  fst (getQueueItem i d')
  = (fun item => mkItem (id item) (entityType item) (entityId item) (action item)
                        (payload item) (filePath item) (retryCount item + 1)
                        (Some err) (priority item) (createdAt item))
      <$> fst (getQueueItem i d)
  /\ (forall j, j ≠ i -> fst (getQueueItem j d') = fst (getQueueItem j d))
  /\ fst (getQueueCount d') = fst (getQueueCount d)
  /\ jobs d' = jobs d.
Proof.
  cbn zeta. unfold getQueueItem, getQueueCount.
  cbn [fst snd markItemFailed sync_queue set_queue jobs]. split_and!.
  - rewrite head_fmap_filter by (intros r; destruct (has_id i r) eqn:E; exact E).
    destruct (filter (fun r => has_id i r) (sync_queue d)) as [|r q] eqn:E; [done|].
    assert (r ∈ filter (fun r => has_id i r) (sync_queue d)) as Hr
      by (rewrite E; apply list_elem_of_here).
    apply list_elem_of_filter in Hr as [Hr _]. apply Is_true_true in Hr.
    cbn. by rewrite Hr.
  - intros j Hne. f_equal. f_equal. apply filter_fmap_fixed.
    + intros r. by destruct (has_id i r).
    + intros r Hr%has_id_true. destruct (has_id i r) eqn:E; [|done].
      apply has_id_true in E. congruence.
  - by rewrite length_fmap.
  - done.
Qed.

(** X6 — a successful item leaves for good.  After [markItemSuccess id] (or
    [removeFromQueue id]) the id looks up as null, every other id looks up as
    before, the count has gone down by the number of rows that carried the
    id, and doing it a second time changes nothing. *)
Theorem markItemSuccess_effect i d :
  let d' := snd (markItemSuccess i d) in
  fst (getQueueItem i d') = None
  /\ (forall j, j ≠ i -> fst (getQueueItem j d') = fst (getQueueItem j d))
  /\ fst (getQueueCount d') + Z.of_nat (length (rows_with_id i (sync_queue d)))
     = fst (getQueueCount d)
  /\ snd (markItemSuccess i d') = d'
  /\ snd (removeFromQueue i d) = d'.
Proof.
  cbn zeta. unfold getQueueItem, getQueueCount.
  cbn [fst snd markItemSuccess removeFromQueue sync_queue set_queue]. split_and!.
  - by rewrite filter_after_discard.
  - intros j Hne. f_equal. f_equal. apply filter_discard_disjoint.
    intros r Hj%has_id_true. apply not_true_is_false. intros Hi%has_id_true. congruence.
  - unfold rows_with_id. induction (sync_queue d) as [|r q IH]; [done|].
    rewrite !filter_bool_cons. destruct (has_id i r); cbn [negb length]; lia.
  - unfold set_queue. cbn [sync_queue sync_queue_seq jobs]. f_equal.
    apply filter_bool_all. intros r [Hr _]%list_elem_of_filter.
    by apply Is_true_true in Hr.
  - done.
Qed.

(** X7 — the pending count under dedup.  When the queue has at most one row
    per entity, enqueuing for an entity with a pending item leaves the count
    as it was, and enqueuing for an entity without one raises it by one. *)
Theorem addToQueue_count et eid act pl fp prio now d :
  at_most_one_per_entity (sync_queue d) ->
  fst (getQueueCount (snd (addToQueue et eid act pl fp prio now d)))
  = if decide (rows_of et eid (sync_queue d) = [])
    then fst (getQueueCount d) + 1
    else fst (getQueueCount d).
Proof.
  intros Hone. specialize (Hone et eid). unfold rows_of in *.
  unfold getQueueCount, addToQueue, addToQueue_delete, addToQueue_insert. cbn [fst snd sync_queue set_queue].
  rewrite length_app. cbn [length].
  assert (Hsplit : (length (filter (fun r => negb (same_entity et eid r)) (sync_queue d))
                    + length (filter (fun r => same_entity et eid r) (sync_queue d))
                    = length (sync_queue d))%nat).
  { clear Hone. induction (sync_queue d) as [|r q IH]; [done|].
    rewrite !filter_bool_cons. destruct (same_entity et eid r); cbn [negb length]; lia. }
  destruct (filter (fun r => same_entity et eid r) (sync_queue d)) as [|r [|r' q']];
    cbn [length] in *; [| |lia].
  - rewrite decide_True by done. lia.
  - rewrite decide_False by done. lia.
Qed.

Lemma addToQueue_count_witness :
  let d := snd (addToQueue job "job-1" update (JObj [("status", JStr "in_progress")])
                           None 0 100 emptyDb) in
  at_most_one_per_entity (sync_queue d)
  /\ fst (getQueueCount (snd (addToQueue job "job-1" update
                                (JObj [("status", JStr "completed")]) None 10 101 d))) = 1
  /\ fst (getQueueCount (snd (addToQueue job "job-2" update JNull None 0 101 d))) = 2.
Proof.
  intros d.
  assert (Hone : at_most_one_per_entity (sync_queue d)).
  { apply (history_at_most_one [OpAdd job "job-1" update _ None 0 100] emptyDb).
    intros et eid. cbn. lia. }
  split_and!; [done | |]; by rewrite (addToQueue_count _ _ _ _ _ _ _ d Hone).
Defined.

(** *** The retry cap *)

Lemma sql_limit_all {A} limit (l : list A) :
  Z.of_nat (length l) <= limit -> sql_limit limit l = l.
Proof.
  intros H. unfold sql_limit. destruct (limit <? 0); [done|].
  apply take_ge. lia.
Qed.

Lemma elem_of_nextBatch limit d item :
  item ∈ fst (getNextQueueItems limit d) ->
  exists r, r ∈ sync_queue d /\ item = rowToItem r /\ retry_count r < 3.
Proof.
  unfold getNextQueueItems. cbn [fst].
  intros (r & -> & Hr)%list_elem_of_fmap. exists r.
  eapply elem_of_sublist in Hr; [|apply sql_limit_sublist].
  rewrite order_by_Permutation in Hr.
  apply list_elem_of_filter in Hr as [Hlt Hr]. apply Is_true_true in Hlt.
  split_and!; [done | done | lia].
Qed.

Lemma nextBatch_has limit d r :
  Z.of_nat (length (sync_queue d)) <= limit ->
  r ∈ sync_queue d -> retry_count r < 3 ->
  rowToItem r ∈ fst (getNextQueueItems limit d).
Proof.
  intros Hlimit Hr Hlt. unfold getNextQueueItems. cbn [fst].
  apply list_elem_of_fmap_2. rewrite sql_limit_all.
  - rewrite order_by_Permutation. apply list_elem_of_filter. split; [|done].
    apply Is_true_true. lia.
  - rewrite order_by_Permutation.
    pose proof (length_filter (fun r => retry_count r <? 3) (sync_queue d)). lia.
Qed.

Lemma elem_of_failedItems d item :
  item ∈ fst (getFailedItems d)
  <-> exists r, r ∈ sync_queue d /\ item = rowToItem r /\ 3 <= retry_count r.
Proof.
  unfold getFailedItems. cbn [fst]. rewrite list_elem_of_fmap. split.
  - intros (r & -> & Hr). exists r. rewrite order_by_Permutation in Hr.
    apply list_elem_of_filter in Hr as [Hge Hr]. apply Is_true_true in Hge.
    split_and!; [done | done | lia].
  - intros (r & Hr & -> & Hge). exists r. split; [done|].
    rewrite order_by_Permutation. apply list_elem_of_filter. split; [|done].
    apply Is_true_true. lia.
Qed.

Lemma getQueueItem_Some i d item :
  fst (getQueueItem i d) = Some item ->
  exists r, r ∈ sync_queue d /\ row_id r = i /\ item = rowToItem r.
Proof.
  unfold getQueueItem. cbn [fst].
  destruct (filter (fun r => has_id i r) (sync_queue d)) as [|r q] eqn:E; [done|].
  intros [= <-]. exists r.
  assert (r ∈ filter (fun r => has_id i r) (sync_queue d)) as Hr
    by (rewrite E; apply list_elem_of_here).
  apply list_elem_of_filter in Hr as [Hid Hr].
  apply Is_true_true, has_id_true in Hid. done.
Qed.

(** The rows of an id after a failure: each has been through [fail_row]. *)
Lemma markItemFailed_rows i err d r' :
  r' ∈ sync_queue (snd (markItemFailed i err d)) ->
  exists r, r ∈ sync_queue d /\ row_id r' = row_id r
            /\ (row_id r = i -> r' = fail_row err r) /\ (row_id r ≠ i -> r' = r).
Proof.
  cbn [snd markItemFailed sync_queue set_queue].
  intros (r & -> & Hr)%list_elem_of_fmap. exists r.
  destruct (has_id i r) eqn:E.
  - apply has_id_true in E. split_and!; done.
  - split_and!; [done | done | | done].
    intros Hi. apply has_id_true in Hi. congruence.
Qed.

Lemma markItemFailed_keeps i err d r :
  r ∈ sync_queue d -> row_id r = i ->
  fail_row err r ∈ sync_queue (snd (markItemFailed i err d)).
Proof.
  intros Hr Hi. cbn [snd markItemFailed sync_queue set_queue].
  apply list_elem_of_fmap. exists r. split; [|done].
  by rewrite (proj2 (has_id_true i r) Hi).
Qed.

Lemma getQueueItem_after_fail i err d :
  fst (getQueueItem i (snd (markItemFailed i err d)))
  = (fun item => mkItem (id item) (entityType item) (entityId item) (action item)
                        (payload item) (filePath item) (retryCount item + 1)
                        (Some err) (priority item) (createdAt item))
      <$> fst (getQueueItem i d).
Proof.
  unfold getQueueItem. cbn [fst snd markItemFailed sync_queue set_queue].
  rewrite head_fmap_filter by (intros r; destruct (has_id i r) eqn:E; exact E).
  destruct (filter (fun r => has_id i r) (sync_queue d)) as [|r q] eqn:E; [done|].
  assert (r ∈ filter (fun r => has_id i r) (sync_queue d)) as Hr
    by (rewrite E; apply list_elem_of_here).
  apply list_elem_of_filter in Hr as [Hr _]. apply Is_true_true in Hr.
  cbn. by rewrite Hr.
Qed.

Lemma getQueueItem_after_reset i d :
  fst (getQueueItem i (snd (retryFailedItem i d)))
  = (fun item => mkItem (id item) (entityType item) (entityId item) (action item)
                        (payload item) (filePath item) 0 None (priority item)
                        (createdAt item))
      <$> fst (getQueueItem i d).
Proof.
  unfold getQueueItem. cbn [fst snd retryFailedItem sync_queue set_queue].
  rewrite head_fmap_filter by (intros r; destruct (has_id i r) eqn:E; exact E).
  destruct (filter (fun r => has_id i r) (sync_queue d)) as [|r q] eqn:E; [done|].
  assert (r ∈ filter (fun r => has_id i r) (sync_queue d)) as Hr
    by (rewrite E; apply list_elem_of_here).
  apply list_elem_of_filter in Hr as [Hr _]. apply Is_true_true in Hr.
  cbn. by rewrite Hr.
Qed.

(** X8 — the retry cap, there and back.  Take an item of a queue whose
    retry counts are not negative.  After three [markItemFailed] on its id
    the item is in no batch whatever the limit, it is listed by
    [getFailedItems], and it still counts as pending.  [retryFailedItem]
    then gives it retryCount 0 and no lastError: it is off the failed list
    and back in every batch the limit does not cut short. *)
Theorem retry_cap_cycle i e1 e2 e3 d item :
  (forall r, r ∈ sync_queue d -> 0 <= retry_count r) ->
  fst (getQueueItem i d) = Some item ->
  let d3 := snd (markItemFailed i e3 (snd (markItemFailed i e2
                   (snd (markItemFailed i e1 d))))) in
  let d4 := snd (retryFailedItem i d3) in
  (forall limit, i ∉ (id <$> fst (getNextQueueItems limit d3)))
  /\ (i ∈ (id <$> fst (getFailedItems d3)))
  /\ fst (getQueueCount d3) = fst (getQueueCount d)
  /\ fst (getQueueItem i d4)
     = Some (mkItem (id item) (entityType item) (entityId item) (action item)
                    (payload item) (filePath item) 0 None (priority item)
                    (createdAt item))
  /\ (i ∉ (id <$> fst (getFailedItems d4)))
  /\ (forall limit, fst (getQueueCount d4) <= limit ->
        i ∈ (id <$> fst (getNextQueueItems limit d4))).
Proof.
  intros Hnonneg Hitem d3 d4.
  destruct (getQueueItem_Some _ _ _ Hitem) as (r0 & Hr0 & Hid0 & ->).
  assert (H3 : forall r, r ∈ sync_queue d3 -> row_id r = i -> 3 <= retry_count r).
  { intros r3 Hr3 Hi.
    apply markItemFailed_rows in Hr3 as (r2 & Hr2 & Hid2 & Hf2 & _).
    apply markItemFailed_rows in Hr2 as (r1 & Hr1 & Hid1 & Hf1 & _).
    apply markItemFailed_rows in Hr1 as (r & Hr & Hid & Hf & _).
    rewrite Hf2, Hf1, Hf by congruence. cbn. specialize (Hnonneg r Hr). lia. }
  assert (Hin3 : fail_row e3 (fail_row e2 (fail_row e1 r0)) ∈ sync_queue d3).
  { repeat (apply markItemFailed_keeps; [|done]). done. }
  assert (H4 : forall r, r ∈ sync_queue d4 -> row_id r = i -> retry_count r = 0).
  { intros r4 (r & -> & Hr)%list_elem_of_fmap Hi.
    destruct (has_id i r) eqn:E; [done|].
    apply not_true_iff_false in E. exfalso. apply E. by apply has_id_true. }
  split_and!.
  - intros limit (item & Hi & Hin)%list_elem_of_fmap.
    apply elem_of_nextBatch in Hin as (r & Hr & -> & Hlt).
    specialize (H3 r Hr (eq_sym Hi)). lia.
  - apply list_elem_of_fmap. eexists. split; [|apply elem_of_failedItems].
    2:{ eexists. split; [exact Hin3|]. split; [reflexivity|].
        cbn. specialize (Hnonneg r0 Hr0). lia. }
    done.
  - unfold getQueueCount, d3. cbn [fst snd markItemFailed sync_queue set_queue].
    by rewrite !length_fmap.
  - unfold d4, d3. rewrite getQueueItem_after_reset, !getQueueItem_after_fail, Hitem.
    done.
  - intros (item & Hi & Hin)%list_elem_of_fmap.
    apply elem_of_failedItems in Hin as (r & Hr & -> & Hge).
    specialize (H4 r Hr (eq_sym Hi)). lia.
  - intros limit Hlimit. apply list_elem_of_fmap.
    exists (rowToItem (reset_row (fail_row e3 (fail_row e2 (fail_row e1 r0))))).
    split; [done|]. apply nextBatch_has; [done| |done].
    unfold d4. cbn [snd retryFailedItem sync_queue set_queue].
    apply list_elem_of_fmap.
    exists (fail_row e3 (fail_row e2 (fail_row e1 r0))). split; [|exact Hin3].
    assert (has_id i (fail_row e3 (fail_row e2 (fail_row e1 r0))) = true) as ->
      by (apply has_id_true; exact Hid0).
    done.
Qed.

Lemma retry_cap_cycle_witness :
  let d := mkDb [mkRow 1 job "job-1" update JNull None 0 None 0 100;
                 mkRow 2 job "job-2" update JNull None 0 None 0 101] 2 ∅ in
  let d3 := snd (markItemFailed 1 "Error 3" (snd (markItemFailed 1 "Error 2"
                   (snd (markItemFailed 1 "Error 1" d))))) in
  id <$> fst (getNextQueueItems 10 d3) = [2]
  /\ (1 ∈ (id <$> fst (getFailedItems d3)))
  /\ (1 ∈ (id <$> fst (getNextQueueItems 10 (snd (retryFailedItem 1 d3))))).
Proof.
  intros d d3.
  destruct (retry_cap_cycle 1 "Error 1" "Error 2" "Error 3" d
              (rowToItem (mkRow 1 job "job-1" update JNull None 0 None 0 100)))
    as (_ & Hfailed & _ & _ & _ & Hback).
  - intros r Hr. repeat (apply elem_of_cons in Hr as [-> | Hr]; [cbn; lia|]).
    by apply elem_of_nil in Hr.
  - done.
  - split_and!; [by vm_compute | exact Hfailed | apply Hback; by vm_compute].
Defined.

Global Instance created_order_total : Total created_order.
Proof. intros a b. unfold created_order. lia. Qed.

Global Instance created_order_trans : Transitive created_order.
Proof. intros a b c. unfold created_order. lia. Qed.

Lemma filter_complement (f g : SyncQueueRow -> bool) (q : list SyncQueueRow) :
  (forall r, g r = negb (f r)) ->
  filter (fun x => f x) q ++ filter (fun x => g x) q ≡ₚ q.
Proof.
  intros Hg. induction q as [|r q IH]; [done|].
  rewrite !filter_bool_cons, Hg. destruct (f r); cbn [negb].
  - cbn. by rewrite IH.
  - rewrite <- Permutation_middle. by rewrite IH.
Qed.

(** X9 — eligible or failed, never neither.  With a limit that does not
    cut the batch short, the items of [getNextQueueItems] and the items of
    [getFailedItems] together are exactly the items of the queue, each once.
    [getFailedItems] returns the items with retryCount >= 3, ordered by
    createdAt ascending, and leaves the database as it was. *)
Theorem eligible_or_failed limit d :
  Z.of_nat (length (sync_queue d)) <= limit ->
  fst (getNextQueueItems limit d) ++ fst (getFailedItems d) ≡ₚ rowToItem <$> sync_queue d
  /\ Forall (fun item => 3 <= retryCount item) (fst (getFailedItems d))
  /\ StronglySorted (fun a b => createdAt a <= createdAt b) (fst (getFailedItems d))
  /\ snd (getFailedItems d) = d.
Proof.
  intros Hlimit. split_and!.
  - unfold getNextQueueItems, getFailedItems. cbn [fst].
    rewrite sql_limit_all.
    + rewrite <- fmap_app, !order_by_Permutation. apply fmap_Permutation.
      apply filter_complement. intros r.
      destruct (Z.ltb_spec (retry_count r) 3), (Z.leb_spec 3 (retry_count r)); cbn; lia.
    + rewrite order_by_Permutation.
      pose proof (length_filter (fun r => retry_count r <? 3) (sync_queue d)). lia.
  - apply Forall_forall. intros item (r & _ & -> & Hge)%elem_of_failedItems. done.
  - unfold getFailedItems. cbn [fst].
    apply (StronglySorted_fmap rowToItem created_order); [by intros x y|].
    apply StronglySorted_order_by; apply _.
  - done.
Qed.

Lemma eligible_or_failed_witness :
  let d := mkDb [mkRow 1 job "job-1" update JNull None 3 (Some "Error") 0 100;
                 mkRow 2 job "job-2" update JNull None 0 None 0 101] 2 ∅ in
  2 <= 10
  /\ fst (getNextQueueItems 10 d) ++ fst (getFailedItems d) ≡ₚ rowToItem <$> sync_queue d.
Proof.
  intros d. split; [lia|]. apply (eligible_or_failed 10 d). cbn. lia.
Defined.

(** ** The local job store, beyond the server-origin guard *)

Lemma upsert_job_other j fromServer now (js : gmap string LocalJob) k :
  k ≠ job_id j -> upsert_job j fromServer now js !! k = js !! k.
Proof.
  intros Hne. unfold upsert_job.
  destruct (js !! job_id j) as [l|]; [destruct fromServer|];
    [destruct (server_may_overwrite l j)|..];
    rewrite ?lookup_insert_ne; done.
Qed.

Lemma local_save_row j now (js : gmap string LocalJob) :
  exists l', upsert_job j false now js !! job_id j = Some l'
    /\ data l' = j /\ is_dirty l' = 1
    /\ match js !! job_id j with
       | Some l => server_version l' = server_version l
                   /\ last_synced_at l' = last_synced_at l
                   /\ local_version l' = local_version l + 1
                   /\ job_created_at l' = job_created_at l
       | None => server_version l' = None /\ last_synced_at l' = None
                 /\ local_version l' = 1 /\ job_created_at l' = now
       end.
Proof.
  unfold upsert_job. destruct (js !! job_id j) as [l|];
    eexists; (split; [apply lookup_insert_eq|]); done.
Qed.

(** X10 — a local save.  [saveJob job false] always stores the job: it
    reads back through [getJobById], the row is dirty, and what the server
    last confirmed is kept (serverVersion and lastSyncedAt stay as they were,
    or null for a job seen for the first time); localVersion goes up by one
    (1 for a new row).  No other job changes, and nothing is enqueued. *)
Theorem local_save_marks_dirty j now d :
  let d' := snd (saveJob j false now d) in
  fst (getJobById (job_id j) d') = Some j
  /\ (exists l', jobs d' !! job_id j = Some l'
        /\ data l' = j /\ is_dirty l' = 1
        /\ match jobs d !! job_id j with
           | Some l => server_version l' = server_version l
                       /\ last_synced_at l' = last_synced_at l
                       /\ local_version l' = local_version l + 1
                       /\ job_created_at l' = job_created_at l
           | None => server_version l' = None /\ last_synced_at l' = None
                     /\ local_version l' = 1 /\ job_created_at l' = now
           end)
  /\ (forall other, other ≠ job_id j -> jobs d' !! other = jobs d !! other)
  /\ sync_queue d' = sync_queue d.
Proof.
  cbn zeta. unfold getJobById. cbn [fst snd saveJob set_jobs jobs sync_queue].
  pose proof (local_save_row j now (jobs d)) as Hrow.
  destruct Hrow as (l' & Hl' & Hdata & Hrest).
  split_and!.
  - by rewrite Hl', <- Hdata.
  - by exists l'.
  - intros other Hne. by apply upsert_job_other.
  - done.
Qed.

(** X11 — what a batch from the server leaves behind.  After
    [saveJobs jobs true], every job of the batch has a row, and that row is
    either clean and holds a job of the batch with that id at its version, or
    it is a dirty row that the batch did not touch.  Rows of other ids and
    the queue are as before. *)
Theorem saveJobs_from_server_outcome (batch : list Job) now d :
  let d' := snd (saveJobs batch true now d) in
  (forall j, j ∈ batch ->
     exists l', jobs d' !! job_id j = Some l'
       /\ ((is_dirty l' = 0
            /\ exists j', j' ∈ batch /\ job_id j' = job_id j /\ data l' = j'
                          /\ server_version l' = Some (version j')
                          /\ last_synced_at l' = Some now)
           \/ (is_dirty l' ≠ 0 /\ jobs d !! job_id j = Some l')))
  /\ (forall k, (forall j, j ∈ batch -> job_id j ≠ k) -> jobs d' !! k = jobs d !! k)
  /\ sync_queue d' = sync_queue d.
Proof.
  cbn zeta. cbn [snd saveJobs set_jobs jobs sync_queue].
  induction batch as [|j batch IH] using rev_ind.
  - split_and!; [|done|done]. intros j Hj. by apply elem_of_nil in Hj.
  - destruct IH as (IHin & IHout & _). rewrite foldl_app. cbn [foldl].
    set (js := foldl _ (jobs d) batch) in *.
    assert (Hnew : exists l', upsert_job j true now js !! job_id j = Some l'
               /\ ((is_dirty l' = 0 /\ data l' = j
                    /\ server_version l' = Some (version j)
                    /\ last_synced_at l' = Some now)
                   \/ (is_dirty l' ≠ 0 /\ js !! job_id j = Some l'))).
    { unfold upsert_job. destruct (js !! job_id j) as [l|] eqn:Hl.
      - destruct (server_may_overwrite l j) eqn:Hg.
        + eexists. split; [apply lookup_insert_eq|]. by left.
        + exists l. split; [done|]. right. split; [|done].
          unfold server_may_overwrite in Hg. apply orb_false_iff in Hg as [Hg _].
          by apply Z.eqb_neq in Hg.
      - eexists. split; [apply lookup_insert_eq|]. by left. }
    split_and!; [| |done].
    + intros j0 Hj0. destruct (decide (job_id j0 = job_id j)) as [Heq|Hne].
      * rewrite Heq. destruct Hnew as (l' & Hl' & [(Hc & Hd & Hv & Ht) | (Hdirty & Hold)]).
        -- exists l'. split; [done|]. left. split; [done|].
           exists j. split_and!; try done. apply elem_of_app. right. apply list_elem_of_here.
        -- exists l'. split; [done|]. right. split; [done|].
           destruct (decide (Exists (fun j1 => job_id j1 = job_id j) batch)) as [Hex|Hnex].
           ++ apply Exists_exists in Hex as (j1 & Hj1 & Hid1).
              destruct (IHin j1 Hj1) as (l1 & Hl1 & [(Hc & _) | (_ & Hd1)]).
              ** rewrite Hid1, Hold in Hl1. congruence.
              ** rewrite Hid1 in Hl1, Hd1. congruence.
           ++ rewrite <- Hold. symmetry. apply IHout. intros j1 Hj1 Hid1.
              apply Hnex, Exists_exists. by exists j1.
      * apply elem_of_app in Hj0 as [Hj0 | Hj0];
          [|apply list_elem_of_singleton in Hj0; congruence].
        destruct (IHin j0 Hj0) as (l' & Hl' & Hcases). exists l'.
        rewrite upsert_job_other by done. split; [done|].
        destruct Hcases as [(Hc & j' & Hj' & Hrest) | Hd]; [left|by right].
        split; [done|]. exists j'. split; [|done]. apply elem_of_app. by left.
    + intros k Hk. rewrite upsert_job_other.
      * apply IHout. intros j0 Hj0. apply Hk, elem_of_app. by left.
      * intros ->. apply (Hk j); [|done]. apply elem_of_app. right. apply list_elem_of_here.
Qed.

(** X12 — marking a job synced.  [markJobSynced id v] clears the dirty flag
    of the job's row and records [v] as its serverVersion, without touching
    the job's data or localVersion; for an id that is not cached it changes
    nothing.  From then on the row is no longer protected: a server-origin
    save of any version, also an older one, replaces the data. *)
Theorem markJobSynced_effect jobId v now d :
  let d' := snd (markJobSynced jobId v now d) in
  fst (getJobById jobId d') = fst (getJobById jobId d)
  /\ (forall l', jobs d' !! jobId = Some l' ->
        is_dirty l' = 0 /\ server_version l' = Some v /\ last_synced_at l' = Some now
        /\ exists l, jobs d !! jobId = Some l /\ local_version l' = local_version l)
  /\ (jobs d !! jobId = None -> d' = d)
  /\ (forall other, other ≠ jobId -> jobs d' !! other = jobs d !! other)
  /\ (forall j t, job_id j = jobId -> is_Some (jobs d !! jobId) ->
        fst (getJobById jobId (snd (saveJob j true t d'))) = Some j).
Proof.
  cbn zeta. unfold getJobById.
  cbn [fst snd markJobSynced saveJob set_jobs jobs]. split_and!.
  - rewrite lookup_alter_eq. by destruct (jobs d !! jobId).
  - intros l'. rewrite lookup_alter_eq.
    destruct (jobs d !! jobId) as [l|]; [|done]. intros [= <-]. split_and!; try done.
    by exists l.
  - intros Hnone. replace (alter _ jobId (jobs d)) with (jobs d); [apply set_jobs_same|].
    apply map_eq. intros k. destruct (decide (k = jobId)) as [->|Hne].
    + by rewrite lookup_alter_eq, Hnone.
    + by rewrite lookup_alter_ne.
  - intros other Hne. by rewrite lookup_alter_ne.
  - intros j t <- [l Hl]. unfold upsert_job.
    rewrite lookup_alter_eq, Hl. cbn. by rewrite lookup_insert_eq.
Qed.

(** X13 — deleting jobs.  After [deleteJob id] the id reads back as null and
    every other job reads back as before; deleting an id that is not cached
    changes nothing; after [deleteAllJobs] no job is listed.  None of them
    touches the queue: a pending mutation of a deleted job stays queued. *)
Theorem deleteJob_effect jobId d :
  let d' := snd (deleteJob jobId d) in
  fst (getJobById jobId d') = None
  /\ (forall other, other ≠ jobId ->
        fst (getJobById other d') = fst (getJobById other d))
  /\ (fst (getJobById jobId d) = None -> d' = d)
  /\ sync_queue d' = sync_queue d
  /\ fst (getAllJobs (snd (deleteAllJobs d))) = []
  /\ sync_queue (snd (deleteAllJobs d)) = sync_queue d.
Proof.
  cbn zeta. unfold getJobById, getAllJobs.
  cbn [fst snd deleteJob deleteAllJobs set_jobs jobs sync_queue]. split_and!.
  - by rewrite lookup_delete_eq.
  - intros other Hne. by rewrite lookup_delete_ne.
  - intros Hnone. rewrite delete_id; [apply set_jobs_same|].
    by destruct (jobs d !! jobId).
  - done.
  - by rewrite map_to_list_empty.
  - done.
Qed.

Lemma upsert_job_ok j fromServer now (js : gmap string LocalJob) :
  (forall k l, js !! k = Some l -> job_row_ok k l) ->
  forall k l, upsert_job j fromServer now js !! k = Some l -> job_row_ok k l.
Proof.
  intros Hjs k l. destruct (decide (k = job_id j)) as [->|Hne].
  - unfold upsert_job. destruct (js !! job_id j) as [l0|] eqn:Hl0.
    + destruct (Hjs _ _ Hl0) as (_ & _ & Hlv).
      destruct fromServer; [destruct (server_may_overwrite l0 j)|].
      * rewrite lookup_insert_eq. intros [= <-]. split_and!; cbn; auto.
      * rewrite Hl0. intros [= <-]. by apply Hjs.
      * rewrite lookup_insert_eq. intros [= <-]. split_and!; cbn; auto. lia.
    + rewrite lookup_insert_eq. intros [= <-].
      split_and!; cbn; [done | destruct fromServer; auto | lia].
  - rewrite upsert_job_other by done. apply Hjs.
Qed.

Lemma applyJobOp_ok d op :
  (forall k l, jobs d !! k = Some l -> job_row_ok k l) ->
  forall k l, jobs (applyJobOp d op) !! k = Some l -> job_row_ok k l.
Proof.
  intros Hd. destruct op as [j b now|batch b now|jobId v now|jobId|];
    cbn [applyJobOp snd saveJob saveJobs markJobSynced deleteJob deleteAllJobs
         set_jobs jobs].
  - by apply upsert_job_ok.
  - generalize dependent (jobs d). induction batch as [|j batch IH]; intros js Hjs; [done|].
    cbn [foldl]. apply IH. by apply upsert_job_ok.
  - intros k l [(-> & l0 & Hl0 & ->) | [_ Hl]]%lookup_alter_Some; [|by apply Hd].
    destruct (Hd _ _ Hl0) as (? & _ & ?). split_and!; cbn; auto.
  - intros k l [_ Hl]%lookup_delete_Some. by apply Hd.
  - intros k l. by rewrite lookup_empty.
Qed.

(** X14 — what the job store keeps true.  In every state reached from an
    empty store through saves (local or from the server, single or batch),
    [markJobSynced] and deletes, every row is stored under the id of the job
    it holds, its dirty flag is 0 or 1, and its localVersion is at least 1.
    So [getJobById id] never returns another job, and the test [!is_dirty]
    of [saveJob] agrees with the filter [is_dirty = 1] of [getDirtyJobs]. *)
Theorem job_store_invariant (ops : list JobOp) :
  let d := foldl applyJobOp emptyDb ops in
  (forall k l, jobs d !! k = Some l -> job_row_ok k l)
  /\ (forall k j, fst (getJobById k d) = Some j -> job_id j = k).
Proof.
  cbn zeta.
  assert (H : forall d0, (forall k l, jobs d0 !! k = Some l -> job_row_ok k l) ->
                         forall k l, jobs (foldl applyJobOp d0 ops) !! k = Some l ->
                                     job_row_ok k l).
  { induction ops as [|op ops IH]; intros d0 Hd0; [done|].
    cbn [foldl]. by apply IH, applyJobOp_ok. }
  assert (Hok : forall k l, jobs (foldl applyJobOp emptyDb ops) !! k = Some l ->
                            job_row_ok k l).
  { apply H. intros k l. cbn. by rewrite lookup_empty. }
  split; [done|].
  intros k j. unfold getJobById. cbn [fst].
  destruct (jobs (foldl applyJobOp emptyDb ops) !! k) as [l|] eqn:Hl; [|done].
  intros [= <-]. by destruct (Hok _ _ Hl).
Qed.

(** X15 — an offline edit and the pulls that follow.  A job is cached clean
    at serverVersion [v] and then edited locally.  A server-origin save
    carrying version [v] or older leaves the edit in place, still dirty; one
    carrying a newer version replaces it with the server's job and clears
    the dirty flag. *)
Theorem offline_edit_and_pull (edited incoming : Job) t1 t2 d l v :
  jobs d !! job_id edited = Some l ->
  is_dirty l = 0 ->
  server_version l = Some v ->
  job_id incoming = job_id edited ->
  let d1 := snd (saveJob edited false t1 d) in
  let d2 := snd (saveJob incoming true t2 d1) in
  fst (getJobById (job_id edited) d1) = Some edited
  /\ (version incoming <= v -> d2 = d1)
  /\ (v < version incoming ->
        jobs d2 !! job_id edited
        = Some (mkLocalJob incoming (Some (version incoming)) (local_version l + 1) 0
                           (Some t2) (job_created_at l))).
Proof.
  intros Hl Hclean Hv Hid. cbn zeta.
  assert (Hd1 : jobs (snd (saveJob edited false t1 d))
                = <[job_id edited := local_update edited l]> (jobs d)).
  { cbn [snd saveJob set_jobs jobs]. unfold upsert_job. by rewrite Hl. }
  assert (Hl1 : jobs (snd (saveJob edited false t1 d)) !! job_id incoming
                = Some (local_update edited l)).
  { by rewrite Hd1, Hid, lookup_insert_eq. }
  split_and!.
  - unfold getJobById. cbn [fst]. by rewrite Hd1, lookup_insert_eq.
  - intros Hle. apply (server_write_refused _ _ _ _ Hl1).
    unfold server_may_overwrite, server_version_or_zero. cbn. rewrite Hv. cbn.
    apply Z.ltb_ge. lia.
  - intros Hlt. rewrite (server_write_applied _ _ _ _ Hl1).
    + by rewrite Hid, lookup_insert_eq.
    + unfold server_may_overwrite, server_version_or_zero. cbn. rewrite Hv. cbn.
      apply Z.ltb_lt. lia.
Qed.

Lemma offline_edit_and_pull_witness :
  let cached := mkJob "job-1" 3 (JObj [("status", JStr "pending")]) in
  let edited := mkJob "job-1" 3 (JObj [("status", JStr "in_progress")]) in
  let same := mkJob "job-1" 3 (JObj [("status", JStr "pending")]) in
  let newer := mkJob "job-1" 4 (JObj [("status", JStr "cancelled")]) in
  let l := mkLocalJob cached (Some 3) 1 0 (Some 50) 10 in
  let d := mkDb [] 0 {[ "job-1" := l ]} in
  let d1 := snd (saveJob edited false 60 d) in
  fst (getJobById "job-1" (snd (saveJob same true 70 d1))) = Some edited
  /\ fst (getJobById "job-1" (snd (saveJob newer true 70 d1))) = Some newer.
Proof.
  intros cached edited same newer l d d1. split.
  - destruct (offline_edit_and_pull edited same 60 70 d l 3) as (Hread & Hkeep & _);
      [done..|]. fold d1 in Hkeep, Hread. rewrite Hkeep; [exact Hread | cbn; lia].
  - destruct (offline_edit_and_pull edited newer 60 70 d l 3) as (_ & _ & Hnew);
      [done..|]. fold d1 in Hnew. unfold getJobById. cbn [fst].
    change "job-1" with (job_id edited). rewrite Hnew; [done | cbn; lia].
Defined.

Lemma elem_of_getDirtyJobs d j lv :
  (j, lv) ∈ fst (getDirtyJobs d)
  <-> exists k l, jobs d !! k = Some l /\ is_dirty l = 1
                  /\ data l = j /\ local_version l = lv.
Proof.
  unfold getDirtyJobs. cbn [fst]. rewrite list_elem_of_fmap. split.
  - intros ([k l] & [= -> ->] & Hin). rewrite order_by_Permutation in Hin.
    apply list_elem_of_filter in Hin as [Hd Hin]. apply Is_true_true in Hd.
    apply elem_of_map_to_list in Hin. exists k, l. cbn in Hd. split_and!; try done. lia.
  - intros (k & l & Hl & Hd & <- & <-). exists (k, l). split; [done|].
    rewrite order_by_Permutation. apply list_elem_of_filter. split.
    + apply Is_true_true. cbn. lia.
    + by apply elem_of_map_to_list.
Qed.

(** X16 — the dirty list.  [getDirtyJobs] lists, with its localVersion,
    exactly the jobs whose row has is_dirty = 1, and reads only.  A job just
    saved locally is on the list; once [markJobSynced] has run for an id, no
    row stored under that id is. *)
Theorem getDirtyJobs_lists_unsynced d :
  (forall j lv, (j, lv) ∈ fst (getDirtyJobs d)
                <-> exists k l, jobs d !! k = Some l /\ is_dirty l = 1
                                /\ data l = j /\ local_version l = lv)
  /\ snd (getDirtyJobs d) = d
  /\ (forall j now, exists lv, (j, lv) ∈ fst (getDirtyJobs (snd (saveJob j false now d))))
  /\ (forall jobId v now j lv,
        (j, lv) ∈ fst (getDirtyJobs (snd (markJobSynced jobId v now d))) ->
        exists k l, k ≠ jobId /\ jobs d !! k = Some l /\ is_dirty l = 1
                    /\ data l = j /\ local_version l = lv).
Proof.
  split_and!.
  - intros j lv. apply elem_of_getDirtyJobs.
  - done.
  - intros j now.
    destruct (local_save_row j now (jobs d)) as (l' & Hl' & Hdata & Hdirty & _).
    exists (local_version l'). apply elem_of_getDirtyJobs. by exists (job_id j), l'.
  - intros jobId v now j lv (k & l & Hl & Hd & Hdata & Hlv)%elem_of_getDirtyJobs.
    cbn [snd markJobSynced set_jobs jobs] in Hl.
    apply lookup_alter_Some in Hl as [(-> & l0 & _ & ->) | [Hne Hl]]; [done|].
    by exists k, l.
Qed.

(** ** The transport policy, for any attempt cap *)




(** ** The pull phase *)

Lemma deleted_jobs_lookup ids d k :
  jobs (foldl (fun d' jobId => snd (deleteJob jobId d')) d ids) !! k
  = if decide (k ∈ ids) then None else jobs d !! k.
Proof.
  revert d. induction ids as [|jobId ids IH]; intros d; [done|].
  cbn [foldl]. rewrite IH. cbn [snd deleteJob set_jobs jobs].
  destruct (decide (k ∈ ids)) as [Hin|Hnin].
  - rewrite decide_True; [done|]. by apply list_elem_of_further.
  - destruct (decide (k = jobId)) as [->|Hne].
    + rewrite decide_True by apply list_elem_of_here. apply lookup_delete_eq.
    + rewrite decide_False by (intros [?|?]%elem_of_cons; done).
      by apply lookup_delete_ne.
Qed.

Lemma deleted_jobs_queue ids d :
  sync_queue (foldl (fun d' jobId => snd (deleteJob jobId d')) d ids) = sync_queue d.
Proof. revert d. induction ids as [|jobId ids IH]; intros d; [done|]. cbn [foldl]. by rewrite IH. Qed.

Lemma apply_pull_queue p now d : sync_queue (apply_pull p now d) = sync_queue d.
Proof. unfold apply_pull. rewrite deleted_jobs_queue. by destruct (updated p). Qed.

(** The pull phase when its first call is answered with a pull response. *)
Lemma pullChanges_resolved w p :
  remote w (length (calls w))
         (PostSyncPull (default 0 (lastSyncedAt (store w))) ["jobs"; "customers"])
  = Resolved (PullResponse p) ->
  pullChanges w
  = (Returns tt,
     with_store (mkState (networkStatus (store w)) (isSyncing (store w))
                         (Some (syncedAt p)) (pendingCount (store w))
                         (conflicts (store w)) (error (store w)))
       (with_db (apply_pull p (clock w / 1000) (db w))
          (log_call (PostSyncPull (default 0 (lastSyncedAt (store w))) ["jobs"; "customers"])
                    w))).
Proof.
  intros Hout. unfold pullChanges, bind at 1, get. set (req := PostSyncPull _ _) in *.
  assert (Hcall : retryWithBackoff (apiClient req) w = (Returns (PullResponse p), log_call req w)).
  { apply retryLoop_returns. unfold apiClient. by rewrite Hout. }
  erewrite try_catch_returns; [reflexivity|].
  rewrite (bind_returns _ _ _ _ _ Hcall).
  unfold apply_pull, bind, nowSeconds, dateNow, liftDb, ret, setLastSyncedAt, set.
  destruct (updated p) as [js|]; destruct (deleted p) as [ids|]; cbn;
    rewrite ?deleteJobs_run; cbn; rewrite ?with_db_same; try done.
  all: unfold with_store, with_db, log_call; cbn; by destruct (db w).
Qed.

(** X18 — a pull that succeeds at once.  When the first pull call is
    answered, the pull phase makes that one call, merges the updated jobs,
    removes every job the response lists as deleted -- dirty or not, updated
    in the same response or not -- sets the cursor to the response's
    [syncedAt], changes nothing else in the store, and leaves the mutation
    queue alone: a pending mutation of a deleted job stays queued. *)
Theorem pull_applies_response w p :
  let req := PostSyncPull (default 0 (lastSyncedAt (store w))) ["jobs"; "customers"] in
  remote w (length (calls w)) req = Resolved (PullResponse p) ->
  exists w',
    pullChanges w = (Returns tt, w')
    /\ calls w' = calls w ++ [req] /\ slept w' = slept w
    /\ db w' = apply_pull p (clock w / 1000) (db w)
    /\ (forall jobId, jobId ∈ default [] (deleted p) -> jobs (db w') !! jobId = None)
    /\ sync_queue (db w') = sync_queue (db w)
    /\ lastSyncedAt (store w') = Some (syncedAt p)
    /\ networkStatus (store w') = networkStatus (store w)
    /\ isSyncing (store w') = isSyncing (store w)
    /\ pendingCount (store w') = pendingCount (store w)
    /\ conflicts (store w') = conflicts (store w)
    /\ error (store w') = error (store w).
Proof.
  intros req Hout. eexists. split; [by apply pullChanges_resolved|].
  cbn [with_store with_db log_call calls slept db store lastSyncedAt networkStatus
       isSyncing pendingCount conflicts error].
  split_and!; try done.
  - intros jobId Hin. unfold apply_pull. rewrite deleted_jobs_lookup.
    by rewrite decide_True.
  - apply apply_pull_queue.
Qed.

Lemma pull_applies_response_witness :
  let dirty := mkLocalJob (mkJob "job-1" 2 (JObj [("status", JStr "completed")]))
                          (Some 2) 2 1 (Some 50) 10 in
  let row := mkRow 1 job "job-1" update (JObj [("version", JNum 2)]) None 0 None 0 100 in
  let response := mkPull (Some []) (Some ["job-1"]) 9000 in
  let w := mkWorld (mkDb [row] 1 {[ "job-1" := dirty ]}) initialState 5000 [] []
                   (fun _ _ => Resolved (PullResponse response)) in
  jobs (db (snd (pullChanges w))) !! "job-1" = None
  /\ sync_queue (db (snd (pullChanges w))) = [row]
  /\ lastSyncedAt (store (snd (pullChanges w))) = Some 9000.
Proof.
  intros dirty row response w.
  destruct (pull_applies_response w response) as (w' & -> & _ & _ & _ & Hdel & Hq & Hc & _);
    [done|].
  cbn [snd]. split_and!; [|done|done].
  apply Hdel. cbn. apply list_elem_of_here.
Defined.


(** ** The push phase as a whole *)

(** The loop always returns, and it only ever touches rows of its items. *)
Lemma pushLoop_run items : forall w,
  exists w',
    pushLoop items w = (Returns tt, w')
    /\ store w' = store w /\ remote w' = remote w
    /\ (forall i, i ∉ id <$> items ->
          rows_with_id i (sync_queue (db w')) = rows_with_id i (sync_queue (db w)))
    /\ (length (sync_queue (db w')) <= length (sync_queue (db w)))%nat.
Proof.
  induction items as [|item items IH]; intros w.
  - exists w. split_and!; done.
  - destruct (pushItem_effect item w) as (b & w1 & Hitem & Hst & Hrem & Hcases).
    assert (Hlen : (length (sync_queue (db w1)) <= length (sync_queue (db w)))%nat).
    { destruct Hcases as [[_ ->] | [[_ ->] | (_ & msg & ->)]];
        [apply length_filter | done | by rewrite length_fmap]. }
    assert (Hother : forall i, i ≠ id item ->
              rows_with_id i (sync_queue (db w1)) = rows_with_id i (sync_queue (db w))).
    { intros i Hi. by eapply pushItem_rows_other. }
    cbn [pushLoop]. rewrite (bind_returns _ _ _ _ _ Hitem). destruct b.
    + exists w1. split_and!; try done.
      intros i Hi. apply Hother. intros ->. apply Hi. rewrite fmap_cons.
      apply list_elem_of_here.
    + destruct (IH w1) as (w' & Hrun & Hst' & Hrem' & Hrows & Hlen').
      exists w'. split_and!; [done | congruence | congruence | | lia].
      intros i Hi. rewrite fmap_cons, not_elem_of_cons in Hi. destruct Hi as [Hne Hi].
      rewrite Hrows by done. by apply Hother.
Qed.

(** X20 — what a push phase leaves alone.  [pushChanges] always returns.
    It changes nothing in the store but the pending count, which it sets to
    the number of rows left in the queue; it never adds a row; and with
    distinct row ids, every row that is not in its batch -- in particular
    every item that has reached the retry cap -- is still there, unchanged.
    With an empty batch it makes no call and leaves the database as it was. *)
Theorem push_leaves_the_rest w :
  NoDup (row_id <$> sync_queue (db w)) ->
  exists w',
    pushChanges w = (Returns tt, w')
    /\ store w' = mkState (networkStatus (store w)) (isSyncing (store w))
                          (lastSyncedAt (store w))
                          (Z.of_nat (length (sync_queue (db w'))))
                          (conflicts (store w)) (error (store w))
    /\ (length (sync_queue (db w')) <= length (sync_queue (db w)))%nat
    /\ (forall r, r ∈ sync_queue (db w) -> 3 <= retry_count r ->
          rows_with_id (row_id r) (sync_queue (db w')) = [r])
    /\ (fst (getNextQueueItems 10 (db w)) = [] -> calls w' = calls w /\ db w' = db w).
Proof.
  intros Hnd.
  destruct (pushLoop_run (fst (getNextQueueItems 10 (db w))) w)
    as (w1 & Hloop & Hst & Hrem & Hrows & Hlen).
  eexists. split.
  { rewrite pushChanges_run. unfold bind at 1. rewrite Hloop. reflexivity. }
  cbn [with_store with_db db store calls]. split_and!.
  - by rewrite Hst.
  - done.
  - intros r Hr Hcap. rewrite Hrows; [by apply rows_with_id_NoDup|].
    intros (item & Hid & Hin)%list_elem_of_fmap.
    apply elem_of_nextBatch in Hin as (r' & Hr' & -> & Hlt).
    cbn [id rowToItem] in Hid.
    assert (r' = r); [|subst; lia].
    pose proof (rows_with_id_NoDup _ _ Hnd Hr) as H1.
    pose proof (rows_with_id_NoDup _ _ Hnd Hr') as H2.
    rewrite <- Hid, H1 in H2. congruence.
  - intros Hempty. rewrite Hempty in Hloop. cbn in Hloop. by injection Hloop as <-.
Qed.

Lemma push_leaves_the_rest_witness :
  let capped := mkRow 1 job "job-1" update JNull None 3 (Some "Network Error") 10 100 in
  let fresh := mkRow 2 job "job-2" update JNull None 0 None 0 101 in
  let w := mkWorld (mkDb [capped; fresh] 2 ∅) initialState 0 [] []
                   (fun _ _ => Resolved NoData) in
  rows_with_id 1 (sync_queue (db (snd (pushChanges w)))) = [capped]
  /\ pendingCount (store (snd (pushChanges w))) = 1.
Proof.
  intros capped fresh w. split; [|by vm_compute].
  destruct (push_leaves_the_rest w) as (w' & Hrun & _ & _ & Hcapped & _).
  - apply (bool_decide_unpack _). by vm_compute.
  - rewrite Hrun. cbn [snd].
    apply (Hcapped capped); [apply list_elem_of_here | cbn; lia].
Defined.

(** *** What a push phase can cost *)







(** *** The other outcomes of one item *)

(** X22 — a push that goes through.  When the attempt for an item returns,
    at once or after rate-limited retries, the push phase deletes the item's
    row and goes on to the next item.  It does not touch the job store: the
    job's row keeps its dirty flag and its serverVersion. *)
Theorem push_success_removes_item item w w1 :
  retryWithBackoff (processQueueItem item) w = (Returns tt, w1) ->
  let w' := after_db (markItemSuccess (id item)) w1 in
  pushItem item w = (Returns false, w')
  /\ rows_with_id (id item) (sync_queue (db w')) = []
  /\ sync_queue (db w') = filter (fun r => negb (has_id (id item) r)) (sync_queue (db w))
  /\ jobs (db w') = jobs (db w)
  /\ calls w' = calls w1 /\ store w' = store w
  /\ (forall rest, pushLoop (item :: rest) w = pushLoop rest w').
Proof.
  intros Hrun w'.
  pose proof (keeps_state_attempt item w) as (Hdb & Hst & _).
  rewrite Hrun in Hdb, Hst. cbn [snd] in Hdb, Hst.
  assert (Hpush : pushItem item w = (Returns false, w')).
  { unfold pushItem. apply try_catch_returns. by rewrite (bind_returns _ _ _ _ _ Hrun). }
  subst w'. cbn [after_db with_db db store calls snd markItemSuccess set_queue
                 sync_queue jobs] in *.
  rewrite Hdb. split_and!; try done.
  - apply rows_with_id_deleted.
  - intros rest. cbn [pushLoop]. by rewrite (bind_returns _ _ _ _ _ Hpush).
Qed.

Lemma push_success_removes_item_witness :
  let row := mkRow 1 job "job-1" update
               (JObj [("status", JStr "completed"); ("version", JNum 2)])
               None 0 None 0 100 in
  let localJob := mkLocalJob (mkJob "job-1" 2 (JObj [("status", JStr "completed")]))
                             (Some 2) 2 1 (Some 50) 10 in
  let w := mkWorld (mkDb [row] 1 {[ "job-1" := localJob ]}) initialState 0 [] []
                   (fun _ _ => Resolved NoData) in
  sync_queue (db (snd (pushItem (rowToItem row) w))) = []
  /\ jobs (db (snd (pushItem (rowToItem row) w))) !! "job-1" = Some localJob.
Proof.
  intros row localJob w.
  destruct (push_success_removes_item (rowToItem row) w
              (log_call (PatchJob "job-1" (row_payload row)) w))
    as (-> & _ & Hq & Hjobs & _); [by vm_compute|].
  cbn [snd]. split; [rewrite Hq; by vm_compute | by rewrite Hjobs].
Defined.



(** ** The cycle and its triggers *)

(** The pull phase changes nothing in the store but the cursor. *)
Lemma pullChanges_store w :
  exists r w' cursor,
    pullChanges w = (r, w')
    /\ store w' = mkState (networkStatus (store w)) (isSyncing (store w)) cursor
                          (pendingCount (store w)) (conflicts (store w)) (error (store w)).
Proof.
  assert (Hsame : store w = mkState (networkStatus (store w)) (isSyncing (store w))
                                    (lastSyncedAt (store w)) (pendingCount (store w))
                                    (conflicts (store w)) (error (store w)))
    by (by destruct (store w)).
  unfold pullChanges, bind at 1, get. unfold try_catch, bind at 1.
  set (req := PostSyncPull _ _). unfold retryWithBackoff.
  destruct (retryWithBackoff_run req 1000 w)
    as (n & w1 & _ & -> & _ & _ & _ & _ & (Hdb & Hst & _)).
  destruct (remote w (length (calls w) + (n - 1)) req) as [[| |p]|e] eqn:Hout;
    cbn [settle].
  - eexists _, _, _. split; [reflexivity|]. cbn. by rewrite Hst.
  - eexists _, _, _. split; [reflexivity|]. cbn. by rewrite Hst.
  - destruct (updated p) as [js|] eqn:Hup; destruct (deleted p) as [ids|] eqn:Hdel;
      (eexists _, _, _; split;
       [ unfold bind, nowSeconds, dateNow, liftDb, ret, setLastSyncedAt, set;
         rewrite ?Hup, ?Hdel; cbn; rewrite ?deleteJobs_run; reflexivity
       | cbn; rewrite ?Hst; reflexivity ]).
  - destruct (isRateLimitError e);
      (eexists _, _, _; split; [reflexivity|]; cbn; by rewrite Hst).
Qed.

Lemma pushChanges_store w :
  exists w',
    pushChanges w = (Returns tt, w')
    /\ store w' = mkState (networkStatus (store w)) (isSyncing (store w))
                          (lastSyncedAt (store w))
                          (Z.of_nat (length (sync_queue (db w'))))
                          (conflicts (store w)) (error (store w)).
Proof.
  destruct (pushLoop_run (fst (getNextQueueItems 10 (db w))) w) as (w1 & Hloop & Hst & _).
  eexists. split.
  { rewrite pushChanges_run. unfold bind at 1. rewrite Hloop. reflexivity. }
  cbn [with_store with_db db store]. by rewrite Hst.
Qed.

(** [startSync] once its guard has let it through. *)
Lemma startSync_started w :
  networkStatus (store w) = online ->
  isSyncing (store w) = false ->
  startSync w
  = try_catch
      (pullChanges ;;; pushChanges ;;;
       now <- dateNow ;;
       set (fun s => mkState (networkStatus s) false (Some now) (pendingCount s)
                             (conflicts s) (error s)) ;;;
       updatePendingCount)
      (fun e =>
         set (fun s => mkState (networkStatus s) false (lastSyncedAt s)
                               (pendingCount s) (conflicts s)
                               (Some (messageOr "Sync failed" e))))
      (with_store (mkState online true (lastSyncedAt (store w)) (pendingCount (store w))
                           (conflicts (store w)) None) w).
Proof.
  intros Hon Hsync. unfold startSync, bind at 1, get.
  rewrite Hon, Hsync, bool_decide_eq_true_2 by done. cbn [negb orb].
  unfold bind at 1, set. by rewrite Hon.
Qed.

(** X24 — a cycle always settles.  [startSync] never throws.  Offline, or
    while a cycle is marked as running, it does nothing at all.  Otherwise
    it ends with isSyncing = false, whether its phases failed or not.  In
    every case the network status and the conflict list are as they were. *)
Theorem startSync_settles w :
  exists w',
    startSync w = (Returns tt, w')
    /\ networkStatus (store w') = networkStatus (store w)
    /\ conflicts (store w') = conflicts (store w)
    /\ (networkStatus (store w) ≠ online \/ isSyncing (store w) = true -> w' = w)
    /\ (networkStatus (store w) = online -> isSyncing (store w) = false ->
          isSyncing (store w') = false).
Proof.
  destruct (decide (networkStatus (store w) = online)) as [Hon|Hoff];
    [destruct (isSyncing (store w)) eqn:Hsync|].
  - exists w. split_and!; try done.
    unfold startSync, bind at 1, get. rewrite Hsync. by rewrite orb_true_r.
  - rewrite (startSync_started w Hon Hsync).
    set (w0 := with_store _ w).
    destruct (pullChanges_store w0) as ([[]|e] & w1 & cursor & Hpull & Hst1).
    + destruct (pushChanges_store w1) as (w2 & Hpush & Hst2).
      eexists. split.
      { erewrite try_catch_returns; [reflexivity|].
        rewrite (bind_returns _ _ _ _ _ Hpull), (bind_returns _ _ _ _ _ Hpush).
        reflexivity. }
      cbn. rewrite Hst2, Hst1. cbn. split_and!; try done.
      * intros [? | ?]; congruence.
    + eexists. split.
      { erewrite try_catch_throws; [reflexivity|]. by apply bind_throws. }
      cbn. rewrite Hst1. cbn. split_and!; try done.
      * intros [? | ?]; congruence.
  - exists w. split_and!; try done.
    unfold startSync, bind at 1, get. by rewrite bool_decide_eq_false_2.
Qed.



(** X26 — resolving a conflict in favour of the server.  [resolveConflict]
    with an id that no conflict of the list has does nothing, whatever the
    resolution.  With resolution 'server' it returns, calls no remote
    service and leaves the queue alone; the conflicts with that id leave
    the list, the others stay; for a job the server's data go through
    [saveJob] as a server write, so a local row that is dirty at a server
    version not below the server's keeps its content, while the conflict is
    dropped all the same; for another entity type the database is as it
    was. *)
Theorem resolveConflict_keep_server w conflictId :
  exists w',
    resolveConflict conflictId keep_server w = (Returns tt, w')
    /\ calls w' = calls w /\ slept w' = slept w
    /\ sync_queue (db w') = sync_queue (db w)
    /\ match List.find (fun c => bool_decide (conflict_id c = conflictId))
                       (conflicts (store w)) with
       | None => forall resolution, resolveConflict conflictId resolution w = (Returns tt, w)
       | Some c =>
           (forall c', c' ∈ conflicts (store w')
                       <-> c' ∈ conflicts (store w) /\ conflict_id c' ≠ conflictId)
           /\ jobs (db w')
              = (if decide (conflict_entityType c = job)
                 then upsert_job (serverData c) true (clock w / 1000) (jobs (db w))
                 else jobs (db w))
           /\ (forall l, jobs (db w) !! job_id (serverData c) = Some l ->
                         server_may_overwrite l (serverData c) = false ->
                         jobs (db w') = jobs (db w))
       end.
Proof.
  unfold resolveConflict, bind at 1, get.
  destruct (List.find _ (conflicts (store w))) as [c|] eqn:Hfind.
  - assert (Hin : forall (l : list SyncConflict) c',
               c' ∈ List.filter (fun c => negb (bool_decide (conflict_id c = conflictId))) l
               <-> c' ∈ l /\ conflict_id c' ≠ conflictId).
    { intros l c'. rewrite !list_elem_of_In, filter_In, negb_true_iff, bool_decide_eq_false.
      done. }
    destruct (decide (conflict_entityType c = job)) as [Hjob|Hother].
    + eexists. split; [reflexivity|]. cbn. split_and!; try done.
      intros l Hl Hg. unfold upsert_job. by rewrite Hl, Hg.
    + eexists. split; [reflexivity|]. cbn. split_and!; try done.
  - eexists. split; [reflexivity|]. split_and!; try done.
    intros resolution. unfold resolveConflict, bind at 1, get. by rewrite Hfind.
Qed.

(** X27 — the two network handlers of [initializeSync].  The callback of
    the first fetch sets the status and then behaves as [startSync]: its
    own test of the status and of [isSyncing] is the guard [startSync]
    applies anyway.  The listener does nothing when the reported status is
    the stored one, and otherwise behaves as that callback.  The status
    either of them stores is 'online' or 'offline', 'online' only for
    [isConnected === true], and a report that is not 'online' changes
    nothing but the status. *)
Theorem netInfo_handlers isConnected w :
  netInfoFetched isConnected w = (setNetworkStatus (statusOf isConnected) ;;; startSync) w
  /\ netInfoChanged isConnected w
     = (if decide (networkStatus (store w) = statusOf isConnected)
        then (Returns tt, w)
        else netInfoFetched isConnected w)
  /\ statusOf isConnected ≠ unknown
  /\ (statusOf isConnected = online <-> isConnected = Some true)
  /\ (isConnected ≠ Some true ->
      netInfoFetched isConnected w
      = (Returns tt,
         with_store (mkState offline (isSyncing (store w)) (lastSyncedAt (store w))
                             (pendingCount (store w)) (conflicts (store w))
                             (error (store w))) w)).
Proof.
  assert (Hfetch : netInfoFetched isConnected w
                   = (setNetworkStatus (statusOf isConnected) ;;; startSync) w).
  { cbv beta iota zeta delta [netInfoFetched setNetworkStatus bind set get].
    cbn [store with_store isSyncing].
    destruct (bool_decide (statusOf isConnected = online)) eqn:Hon,
             (isSyncing (store w)) eqn:Hsync;
      cbn [andb negb]; try reflexivity;
      unfold startSync, bind at 1, get; cbn [store with_store isSyncing networkStatus];
      rewrite ?Hon, ?orb_true_r; reflexivity. }
  split_and!.
  - done.
  - unfold netInfoChanged, bind at 1, get.
    destruct (decide (networkStatus (store w) = statusOf isConnected)) as [Heq|Hne].
    + by rewrite bool_decide_eq_true_2.
    + by rewrite bool_decide_eq_false_2.
  - by destruct isConnected as [[]|].
  - destruct isConnected as [[]|]; cbn; split; congruence.
  - intros Hoff. rewrite Hfetch.
    assert (statusOf isConnected = offline) as -> by (by destruct isConnected as [[]|]).
    reflexivity.
Qed.

Lemma netInfo_handlers_witness :
  let w := mkWorld emptyDb (mkState online false None 0 [] None) 0 [] []
                   (fun _ _ => Resolved NoData) in
  store (snd (netInfoChanged None w)) = mkState offline false None 0 [] None
  /\ calls (snd (netInfoChanged None w)) = [].
Proof.
  intros w.
  destruct (netInfo_handlers None w) as (_ & -> & _ & _ & ->); [done|].
  by vm_compute.
Defined.
